(** * PDMX MusicXML -> Song JSON converter (scripts/import-pdmx.py)

    A shallow embedding of the score -> document pipeline of
    [scripts/import-pdmx.py] and the properties of its stages.

    Conventions of the embedding.
    - A Python [float] is the rational [Q] it stands for and Python [int] is
      [Z].  The arithmetic of the two estimators is that of binary64 floats:
      every sum, product and quotient is rounded to the nearest double, ties
      to even ([rnd]).  Infinities and NaN are not represented: a result
      beyond the range of doubles is outside the model.  The beats of the
      sectioner (the window boundaries, whole numbers of bars, and the end of
      the last note) are exact.
    - [int(x)] on a float truncates toward zero: [py_int].
    - A division by zero raises [ZeroDivisionError] and [int(None)] raises
      [TypeError]: functions that can raise return an [outcome].
    - A [str] is a sequence of ASCII characters; lower-casing and title-casing
      of other characters (the Unicode tables of [str.lower] and [str.title])
      are not represented, and statements on the value of a slug are made for
      ASCII file stems.
    - The score object of music21 is a record of what the script reads from
      it: the flattened note/chord/rest stream, the metronome marks, the time
      signatures, the key signatures and the metadata. *)

From Stdlib Require Import List ZArith QArith Qround Qabs Qminmax Qpower.
From Stdlib Require Import Lqa Lia Bool.
From Stdlib Require Import String Ascii DecimalString DecimalNat.
From Stdlib Require Import Sorted Permutation.
Import ListNotations.

Local Open Scope Z_scope.
Local Open Scope Q_scope.

(** ** Python primitives *)

(** The exceptions the pipeline can raise on a parsed score. *)
Inductive exn : Type :=
| ZeroDivisionError
| TypeError.

(** Result of a call: a returned value or a raised exception. *)
Inductive outcome (A : Type) : Type :=
| Returned (a : A)
| Raised (e : exn).
Arguments Returned {A} a.
Arguments Raised {A} e.

Definition bind {A B : Type} (m : outcome A) (k : A -> outcome B) : outcome B :=
  match m with
  | Returned a => k a
  | Raised e => Raised e
  end.

Notation "x <- m ;; k" := (bind m (fun x => k))
  (at level 61, m at next level, right associativity).

(** [int(x)] for a float [x]: the fractional part is dropped. *)
Definition py_int (x : Q) : Z := Z.quot (Qnum x) (Zpos (Qden x)).

(** [max(a, b)]: Python returns [b] only when [b > a]. *)
Definition py_max2 (a b : Q) : Q := if Qlt_le_dec a b then b else a.

(** [max(iterable)] over a non-empty iterable with first item [x]. *)
Definition py_max (x : Q) (xs : list Q) : Q := fold_left py_max2 xs x.

(** *** Binary64 arithmetic *)

(** The integer nearest to [x], the even one of the two when [x] lies half way
    between them. *)
Definition round_half_even (x : Q) : Z :=
  let f := Qfloor x in
  match Qcompare (x - inject_Z f) (1 # 2) with
  | Lt => f
  | Gt => (f + 1)%Z
  | Eq => if Z.even f then f else (f + 1)%Z
  end.

(** For a positive [x], the exponent [e] with [2 ^ e <= x < 2 ^ (e + 1)]. *)
Definition ilog2 (x : Q) : Z :=
  let k := (Z.log2 (Qnum x) - Z.log2 (Zpos (Qden x)))%Z in
  if Qle_bool (2 ^ k) x then k else (k - 1)%Z.

(** The exponent of the spacing of the doubles around a positive [x]: 53
    significant bits, and [2 ^ -1074] for the subnormal numbers. *)
Definition ulp_exp (x : Q) : Z := Z.max (ilog2 x - 52) (-1074).

(** The double nearest to a positive [x]. *)
Definition round_pos (x : Q) : Q :=
  let e := ulp_exp x in
  inject_Z (round_half_even (x / 2 ^ e)) * 2 ^ e.

(** The double nearest to [x], ties to even, in lowest terms. *)
Definition rnd (x : Q) : Q :=
  match Qcompare x 0 with
  | Eq => 0
  | Gt => Qred (round_pos x)
  | Lt => Qred (- round_pos (- x))
  end.

(** [float(z)] for an integer [z]. *)
Definition float_of_int (z : Z) : Q := rnd (inject_Z z).

(** [x + y] and [x * y] on floats. *)
Definition fadd (x y : Q) : Q := rnd (x + y).

Definition fmul (x y : Q) : Q := rnd (x * y).

(** [x / y] on floats: a zero divisor raises. *)
Definition fdiv (x y : Q) : outcome Q :=
  if Qeq_bool y 0 then Raised ZeroDivisionError else Returned (rnd (x / y)).

(** [a / b] on integers: the double nearest to the quotient. *)
Definition int_truediv (a b : Z) : outcome Q :=
  if Z.eqb b 0 then Raised ZeroDivisionError
  else Returned (rnd (inject_Z a / inject_Z b)).

(** [str(n)] for a natural number. *)
Definition str_of_nat (n : nat) : string :=
  NilEmpty.string_of_uint (Nat.to_uint n).

(** [len(l)]. *)
Definition len {A : Type} (l : list A) : Z := Z.of_nat (List.length l).

(** Strings are sequences of ASCII characters; the case operations below act
    on the letters [A-Z] and [a-z] and leave every other character as it is.
    They are [str.lower] and [str.title] on strings of ASCII characters. *)
Definition is_upper (c : ascii) : bool :=
  (65 <=? nat_of_ascii c)%nat && (nat_of_ascii c <=? 90)%nat.

Definition is_lower (c : ascii) : bool :=
  (97 <=? nat_of_ascii c)%nat && (nat_of_ascii c <=? 122)%nat.

Definition to_lower (c : ascii) : ascii :=
  if is_upper c then ascii_of_nat (nat_of_ascii c + 32) else c.

Definition to_upper (c : ascii) : ascii :=
  if is_lower c then ascii_of_nat (nat_of_ascii c - 32) else c.

(** [s.lower()]. *)
Fixpoint py_lower (s : string) : string :=
  match s with
  | EmptyString => EmptyString
  | String c s' => String (to_lower c) (py_lower s')
  end.

(** [s.replace(a, b)] for one-character strings [a] and [b]. *)
Fixpoint py_replace (a b : ascii) (s : string) : string :=
  match s with
  | EmptyString => EmptyString
  | String c s' => String (if Ascii.eqb c a then b else c) (py_replace a b s')
  end.

(** [s.title()]: a letter that follows a letter is lowered, any other letter
    is raised; [prev_cased] tells whether the previous character is a letter. *)
Fixpoint py_title_from (prev_cased : bool) (s : string) : string :=
  match s with
  | EmptyString => EmptyString
  | String c s' =>
      let cased := is_upper c || is_lower c in
      String (if cased then (if prev_cased then to_lower c else to_upper c) else c)
             (py_title_from cased s')
  end.

Definition py_title (s : string) : string := py_title_from false s.

(** ** Data model *)

(** A NoteEvent dict: [{"note", "startBeat", "durationBeats"}]. *)
Record NoteEvent : Type := mkNoteEvent {
  note : Z;
  startBeat : Q;
  durationBeats : Q
}.

(** The ["layers"] dict of a section. *)
Record Layers : Type := mkLayers {
  melody : list NoteEvent;
  full : list NoteEvent
}.

(** A section dict; its keys live in the name space [Sec]. *)
Module Sec.
Record t : Type := mk {
  id : string;
  label : string;
  startBeat : Q;
  endBeat : Q;
  difficulty : Z;
  layers : Layers
}.
End Sec.

(** ** split_into_sections *)

(** The variables of the loop of [split_into_sections]. *)
Record SplitState : Type := mkSplit {
  sections : list Sec.t;
  current_notes : list NoteEvent;
  section_start : Q;
  section_idx : nat
}.

Definition is_nonempty {A : Type} (l : list A) : bool :=
  match l with [] => false | _ :: _ => true end.

(** The test of the loop body:
    [note["startBeat"] >= section_start + beats_per_section and current_notes]. *)
Definition window_closes (beats_per_section : Z) (st : SplitState) (n : NoteEvent) : bool :=
  Qle_bool (section_start st + inject_Z beats_per_section) (startBeat n)
  && is_nonempty (current_notes st).

(** The section appended when a window closes. *)
Definition closed_section (beats_per_section : Z) (st : SplitState) : Sec.t :=
  {| Sec.id := "section-" ++ str_of_nat (section_idx st);
     Sec.label := "Section " ++ str_of_nat (section_idx st + 1);
     Sec.startBeat := section_start st;
     Sec.endBeat := section_start st + inject_Z beats_per_section;
     Sec.difficulty := 3%Z;
     Sec.layers := {| melody := current_notes st; full := current_notes st |} |}.

(** One iteration of [for note in notes]. *)
Definition split_step (beats_per_section : Z) (st : SplitState) (n : NoteEvent) : SplitState :=
  if window_closes beats_per_section st n then
    {| sections := sections st ++ [closed_section beats_per_section st];
       current_notes := [n];
       section_start := section_start st + inject_Z beats_per_section;
       section_idx := S (section_idx st) |}
  else
    {| sections := sections st;
       current_notes := current_notes st ++ [n];
       section_start := section_start st;
       section_idx := section_idx st |}.

Definition split_init : SplitState :=
  {| sections := []; current_notes := []; section_start := 0; section_idx := 0 |}.

Definition split_loop (beats_per_section : Z) (notes : list NoteEvent) : SplitState :=
  fold_left (split_step beats_per_section) notes split_init.

(** The section appended after the loop, [last] being [current_notes[-1]]. *)
Definition final_section (st : SplitState) (last : NoteEvent) : Sec.t :=
  {| Sec.id := "section-" ++ str_of_nat (section_idx st);
     Sec.label := "Section " ++ str_of_nat (section_idx st + 1);
     Sec.startBeat := section_start st;
     Sec.endBeat := startBeat last + durationBeats last;
     Sec.difficulty := 3%Z;
     Sec.layers := {| melody := current_notes st; full := current_notes st |} |}.

Definition split_finish (st : SplitState) : list Sec.t :=
  match rev (current_notes st) with
  | [] => sections st
  | last :: _ => sections st ++ [final_section st last]
  end.

Definition split_into_sections
    (notes : list NoteEvent) (beats_per_bar : Z) (bars_per_section : Z) : list Sec.t :=
  match notes with
  | [] => []
  | _ :: _ =>
      let beats_per_section := (beats_per_bar * bars_per_section)%Z in
      split_finish (split_loop beats_per_section notes)
  end.

(** ** The parsed score *)

(** An element of [score.flatten().notesAndRests]: a note with its pitch, a
    chord with its pitches, or a rest, each with its offset and the quarter
    length of its duration.  A pitch is given by its MIDI number. *)
Inductive Element : Type :=
| NoteElt (pitch : Z) (offset quarterLength : Q)
| ChordElt (pitches : list Z) (offset quarterLength : Q)
| RestElt (offset quarterLength : Q).

(** A [music21.tempo.MetronomeMark]: [number] is its beats per minute, [None]
    for a mark that carries no number (a tempo given by a sound only). *)
Record MetronomeMark : Type := mkMetronomeMark { number : option Q }.

(** A [music21.meter.TimeSignature]: numerator and denominator are counts. *)
Record TimeSignature : Type := mkTimeSignature { numerator : N; denominator : N }.

(** A [music21.key.KeySignature]: [asKey] is the text of [str(ks.asKey())],
    absent when the object has no such attribute. *)
Record KeySignature : Type := mkKeySignature { sharps : Z; asKey : option string }.

(** [score.metadata]: a missing or empty field is [None]. *)
Record ScoreMetadata : Type := mkScoreMetadata {
  md_title : option string;
  md_composer : option string
}.

Record Score : Type := mkScore {
  notesAndRests : list Element;
  metronomeMarks : list MetronomeMark;
  timeSignatures : list TimeSignature;
  keySignatures : list KeySignature;
  score_metadata : option ScoreMetadata
}.

(** ** Extraction *)

Definition midi_note_number (pitch : Z) : Z := pitch.

Definition beats_from_offset (offset : Q) : Q := offset.

Definition duration_in_beats (quarterLength : Q) : Q := quarterLength.

Definition extract_key_signature (score : Score) : string :=
  match keySignatures score with
  | ks :: _ =>
      match asKey ks with
      | Some k => k
      | None =>
          if (0 <=? sharps ks)%Z
          then str_of_nat (Z.to_nat (sharps ks)) ++ " sharps"
          else str_of_nat (Z.abs_nat (sharps ks)) ++ " flats"
      end
  | [] => "C"
  end%string.

Definition extract_time_signature (score : Score) : Z * Z :=
  match timeSignatures score with
  | ts :: _ => (Z.of_N (numerator ts), Z.of_N (denominator ts))
  | [] => (4, 4)%Z
  end.

(** [int(tempos[0].number)] raises [TypeError] when the number is [None]. *)
Definition extract_tempo (score : Score) : outcome Z :=
  match metronomeMarks score with
  | m :: _ =>
      match number m with
      | Some x => Returned (py_int x)
      | None => Raised TypeError
      end
  | [] => Returned 120%Z
  end.

(** The body of [for element in score.flatten().notesAndRests]. *)
Definition append_element (notes : list NoteEvent) (element : Element) : list NoteEvent :=
  match element with
  | NoteElt pitch offset ql =>
      notes ++ [ {| note := midi_note_number pitch;
                    startBeat := beats_from_offset offset;
                    durationBeats := duration_in_beats ql |} ]
  | ChordElt pitches offset ql =>
      fold_left
        (fun acc pitch =>
           acc ++ [ {| note := midi_note_number pitch;
                       startBeat := beats_from_offset offset;
                       durationBeats := duration_in_beats ql |} ])
        pitches notes
  | RestElt _ _ => notes
  end.

(** The order of the sort keys [(n["startBeat"], n["note"])]: tuples compare
    by their first components and, when these are equal, by their second. *)
Definition key_le (a b : NoteEvent) : bool :=
  match startBeat a ?= startBeat b with
  | Lt => true
  | Eq => (note a <=? note b)%Z
  | Gt => false
  end.

(** [list.sort] is stable: an item is placed before the first item whose key
    is not smaller, items being inserted from the last to the first. *)
Fixpoint sort_insert (x : NoteEvent) (l : list NoteEvent) : list NoteEvent :=
  match l with
  | [] => [x]
  | y :: l' => if key_le x y then x :: l else y :: sort_insert x l'
  end.

Definition py_sort (l : list NoteEvent) : list NoteEvent :=
  fold_right sort_insert [] l.

Definition score_to_note_events (score : Score) : list NoteEvent :=
  py_sort (fold_left append_element (notesAndRests score) []).

(** ** Estimators *)

(** The exact value of [startBeat + durationBeats]. *)
Definition note_end (n : NoteEvent) : Q := startBeat n + durationBeats n.

(** [n["startBeat"] + n["durationBeats"]] as the estimators compute it. *)
Definition float_end (n : NoteEvent) : Q := fadd (startBeat n) (durationBeats n).

Definition estimate_difficulty (notes : list NoteEvent) (tempo : Z) : outcome Z :=
  match notes with
  | [] => Returned 1%Z
  | n :: ns =>
      let last_beat := py_max (float_end n) (map float_end ns) in
      density <- fdiv (float_of_int (len notes)) (py_max2 last_beat 1) ;;
      speed <- int_truediv tempo 120 ;;
      let score := fmul density speed in
      if Qlt_le_dec score (1 # 2) then Returned 1%Z
      else if Qlt_le_dec score 1 then Returned 2%Z
      else if Qlt_le_dec score 2 then Returned 3%Z
      else if Qlt_le_dec score 3 then Returned 4%Z
      else Returned 5%Z
  end.

Definition estimate_duration (notes : list NoteEvent) (tempo : Z) : outcome Z :=
  match notes with
  | [] => Returned 60%Z
  | n :: ns =>
      let last := py_max (float_end n) (map float_end ns) in
      q <- fdiv last (float_of_int tempo) ;;
      Returned (Z.max (py_int (fmul q 60)) 10)
  end.

(** ** The Song document *)

Module Song.
Record metadata_t : Type := mkMetadata {
  title : string;
  artist : string;
  genre : string;
  difficulty : Z;
  durationSeconds : Z;
  attribution : string
}.

Record settings_t : Type := mkSettings {
  tempo : Z;
  timeSignature : list Z;
  keySignature : string;
  countIn : Z;
  metronomeEnabled : bool;
  loopEnabled : bool
}.

Record scoring_t : Type := mkScoring {
  timingToleranceMs : Z;
  timingGracePeriodMs : Z;
  passingScore : Z;
  starThresholds : list Z
}.

Record t : Type := mk {
  id : string;
  version : Z;
  type : string;
  source : string;
  metadata : metadata_t;
  sections : list Sec.t;
  settings : settings_t;
  scoring : scoring_t
}.
End Song.

(** ** convert_file *)

(** [title] and [artist] of the document; [basename] is the slug of the file
    name. *)
Definition derive_title_artist (score : Score) (basename : string) : string * string :=
  let title := py_title (py_replace "-" " " basename) in
  match score_metadata score with
  | Some md =>
      (match md_title md with Some t => t | None => title end,
       match md_composer md with Some c => c | None => "Classical"%string end)
  | None => (title, "Classical"%string)
  end.

(** [convert_file(filepath)].  [stem] is [Path(filepath).stem] and [parsed] the
    result of [music21.converter.parse(filepath)], [None] when it raised.  The
    function returns [Some] document, returns [None], or raises. *)
Definition convert_file (stem : string) (parsed : option Score) : outcome (option Song.t) :=
  match parsed with
  | None => Returned None
  | Some score =>
      let notes := score_to_note_events score in
      if (len notes <? 4)%Z then Returned None
      else
        tempo <- extract_tempo score ;;
        let time_sig := extract_time_signature score in
        let key_sig := extract_key_signature score in
        d <- estimate_difficulty notes tempo ;;
        let difficulty := Z.min 5 (Z.max 1 d) in
        let sections := split_into_sections notes (fst time_sig) 16 in
        if negb (is_nonempty sections) then Returned None
        else
          let basename := py_replace "_" "-" (py_replace " " "-" (py_lower stem)) in
          let song_id := ("pdmx-" ++ basename)%string in
          let (title, artist) := derive_title_artist score basename in
          seconds <- estimate_duration notes tempo ;;
          Returned (Some
            {| Song.id := song_id;
               Song.version := 1%Z;
               Song.type := "song";
               Song.source := "pdmx";
               Song.metadata :=
                 {| Song.title := title;
                    Song.artist := artist;
                    Song.genre := "classical";
                    Song.difficulty := difficulty;
                    Song.durationSeconds := seconds;
                    Song.attribution := "Piano-MIDI.de corpus" |};
               Song.sections := sections;
               Song.settings :=
                 {| Song.tempo := tempo;
                    Song.timeSignature := [fst time_sig; snd time_sig];
                    Song.keySignature := key_sig;
                    Song.countIn := 4%Z;
                    Song.metronomeEnabled := true;
                    Song.loopEnabled := true |};
               Song.scoring :=
                 {| Song.timingToleranceMs := 50%Z;
                    Song.timingGracePeriodMs := 150%Z;
                    Song.passingScore := 70%Z;
                    Song.starThresholds := [70; 85; 95]%Z |} |})
  end.

(** ** main *)

(** [s.endswith(suffix)]. *)
Definition py_endswith (s suffix : string) : bool :=
  let n := String.length s in
  let k := String.length suffix in
  (k <=? n)%nat && String.eqb (substring (n - k) k s) suffix.

(** [f.endswith((".xml", ".mxl", ".musicxml"))]. *)
Definition is_notation_file (f : string) : bool :=
  py_endswith f ".xml" || py_endswith f ".mxl" || py_endswith f ".musicxml".

(** [os.path.join(a, b)] of [posixpath]. *)
Definition os_path_join (a b : string) : string :=
  if prefix "/" b then b
  else if String.eqb a "" || py_endswith a "/" then (a ++ b)%string
  else (a ++ "/" ++ b)%string.

(** The files found in a walk, given as the [(root, filenames)] pairs that
    [os.walk] yields: the two nested [for] loops with their [append]. *)
Definition discover (walk : list (string * list string)) : list string :=
  flat_map
    (fun entry =>
       map (os_path_join (fst entry)) (filter is_notation_file (snd entry)))
    walk.

(** [sorted(files)]: strings compare character by character. *)
Fixpoint sorted_insert (x : string) (l : list string) : list string :=
  match l with
  | [] => [x]
  | y :: l' => if String.leb x y then x :: l else y :: sorted_insert x l'
  end.

Definition py_sorted (l : list string) : list string :=
  fold_right sorted_insert [] l.

(** The parsed command line: [--file], [--input-dir] (both [None] when not
    given) and [--output-dir]. *)
Record Args : Type := mkArgs {
  arg_file : option string;
  arg_input_dir : option string;
  arg_output_dir : string
}.

(** Truth value of an optional string: [None] and [""] are false. *)
Definition truthy (o : option string) : bool :=
  match o with
  | Some s => negb (String.eqb s "")
  | None => false
  end.

(** How [main] ends: with the usage error of [parser.error], after the whole
    batch, or with the exception of a conversion.  [written] lists the
    [(out_path, song)] pairs dumped so far, in order, and [success] is the
    counter of the loop. *)
Inductive main_result : Type :=
| UsageError
| Finished (written : list (string * Song.t)) (success : nat)
| Aborted (written : list (string * Song.t)) (success : nat) (e : exn).

Section Main.

(** The file system and the libraries around [main]: the result of
    [music21.converter.parse] on a path ([None] when it raises), [Path(p).stem]
    and the pairs yielded by [os.walk].  Creating the directory and writing a
    file are taken to succeed. *)
Variable parse : string -> option Score.
Variable stem_of : string -> string.
Variable os_walk : string -> list (string * list string).

(** [convert_file(filepath)] on the file system. *)
Definition convert_path (filepath : string) : outcome (option Song.t) :=
  convert_file (stem_of filepath) (parse filepath).

(** The [files] list of [main]: the single file when [args.file] is true,
    the walk of [args.input_dir] otherwise.  [main] gets here with one of the
    two true, so that the [None] cases do not occur. *)
Definition select_files (args : Args) : list string :=
  if truthy (arg_file args) then
    match arg_file args with Some f => [f] | None => [] end
  else
    match arg_input_dir args with Some d => discover (os_walk d) | None => [] end.

(** [os.path.join(args.output_dir, f"{song['id']}.json")]. *)
Definition out_path (output_dir : string) (song : Song.t) : string :=
  os_path_join output_dir (Song.id song ++ ".json").

(** The loop [for filepath in sorted(files)], from the state
    [(written, success)]. *)
Fixpoint run_batch (output_dir : string) (files : list string)
    (written : list (string * Song.t)) (success : nat) : main_result :=
  match files with
  | [] => Finished written success
  | filepath :: rest =>
      match convert_path filepath with
      | Raised e => Aborted written success e
      | Returned None => run_batch output_dir rest written success
      | Returned (Some song) =>
          run_batch output_dir rest
            (written ++ [(out_path output_dir song, song)]) (S success)
      end
  end.

Definition main (args : Args) : main_result :=
  if negb (truthy (arg_file args)) && negb (truthy (arg_input_dir args))
  then UsageError
  else run_batch (arg_output_dir args) (py_sorted (select_files args)) [] 0.

(** What the loop dumps for one file, and whether the file makes
    [convert_file] raise. *)
Definition entry_of (output_dir filepath : string) : list (string * Song.t) :=
  match convert_path filepath with
  | Returned (Some song) => [(out_path output_dir song, song)]
  | _ => []
  end.

Definition raises_on (filepath : string) : bool :=
  match convert_path filepath with
  | Raised _ => true
  | Returned _ => false
  end.

End Main.

(** * Vocabulary of the statements *)

(** The notes of a section, and the notes placed in a list of sections. *)
Definition sec_notes (s : Sec.t) : list NoteEvent := full (Sec.layers s).

Definition placed_notes (secs : list Sec.t) : list NoteEvent :=
  List.concat (map sec_notes secs).

(** Both layers of a section hold the same, non-empty list. *)
Definition layers_ok (s : Sec.t) : Prop :=
  melody (Sec.layers s) = full (Sec.layers s) /\ full (Sec.layers s) <> [].

(** The nominal start of the window of index [i]. *)
Definition window_start (beats_per_section : Z) (i : nat) : Q :=
  inject_Z (Z.of_nat i) * inject_Z beats_per_section.

(** What holds of the loop variables once the notes [done] are consumed. *)
Record loop_inv (bps : Z) (done : list NoteEvent) (st : SplitState) : Prop := {
  inv_partition : placed_notes (sections st) ++ current_notes st = done;
  inv_layers : Forall layers_ok (sections st);
  inv_current : done <> [] -> current_notes st <> [];
  inv_start : section_start st == window_start bps (List.length (sections st));
  inv_first : match sections st with
              | [] => section_start st = 0
              | s :: _ => Sec.startBeat s = 0
              end;
  inv_closed : forall i s, nth_error (sections st) i = Some s ->
      Sec.startBeat s == window_start bps i /\
      Sec.endBeat s = Sec.startBeat s + inject_Z bps
}.

(** Truncation toward zero: the floor of a non-negative number, the ceiling
    of a negative one. *)
Definition truncate (x : Q) : Z :=
  if Qle_bool 0 x then Qfloor x else Qceiling x.

(** [r] is an integer nearest to [x]. *)
Definition nearest_integer (x : Q) (r : Z) : Prop :=
  Qabs (x - inject_Z r) <= 1 # 2.

(** [m] is the largest [startBeat + durationBeats] of [notes]. *)
Definition is_last_beat (notes : list NoteEvent) (m : Q) : Prop :=
  (exists n, In n notes /\ note_end n == m) /\
  (forall n, In n notes -> note_end n <= m).

(** [m] is the largest [startBeat + durationBeats] of [notes], the sums
    being float sums. *)
Definition is_float_last_beat (notes : list NoteEvent) (m : Q) : Prop :=
  (exists n, In n notes /\ float_end n == m) /\
  (forall n, In n notes -> float_end n <= m).

(** The score computed by [estimate_difficulty] on a non-empty list. *)
Definition difficulty_score (n : NoteEvent) (ns : list NoteEvent) (tempo : Z) : Q :=
  fmul (rnd (float_of_int (len (n :: ns))
             / py_max2 (py_max (float_end n) (map float_end ns)) 1))
       (rnd (inject_Z tempo / 120)).

(** The characters of [s] are ASCII characters. *)
Definition ascii_only (s : string) : bool :=
  forallb (fun c => (nat_of_ascii c <? 128)%nat) (list_ascii_of_string s).

(** The events of one element: one per pitch, all with the offset and the
    duration of the element; none for a rest. *)
Definition element_events (e : Element) : list NoteEvent :=
  match e with
  | NoteElt pitch offset ql => [ mkNoteEvent pitch offset ql ]
  | ChordElt pitches offset ql => map (fun p => mkNoteEvent p offset ql) pitches
  | RestElt _ _ => []
  end.

(** The number of pitches of an element. *)
Definition pitch_count (e : Element) : nat :=
  match e with
  | NoteElt _ _ _ => 1
  | ChordElt pitches _ _ => List.length pitches
  | RestElt _ _ => 0
  end.

(** [a] is not after [b] in the order of [(startBeat, note)]. *)
Definition key_order (a b : NoteEvent) : Prop :=
  startBeat a < startBeat b \/
  (startBeat a == startBeat b /\ (note a <= note b)%Z).

(** Two events have the same sort key. *)
Definition key_eqb (a b : NoteEvent) : bool := key_le a b && key_le b a.

(** The notes of a window that starts at [start]: every note but the first
    starts before the window end, and the first one starts at or after
    [start] unless the window is the first of the piece. *)
Definition window_fits
    (bps : Z) (start : Q) (first_window : bool) (notes : list NoteEvent) : Prop :=
  match notes with
  | [] => True
  | first :: others =>
      (first_window = false -> start <= startBeat first) /\
      Forall (fun n => startBeat n < start + inject_Z bps) others
  end.

(** What holds, besides [loop_inv], of the loop variables: the identity of
    the closed sections by position, their contiguity, and the placement of
    the notes in the windows. *)
Record loop_inv_places (bps : Z) (st : SplitState) : Prop := {
  inv_idx : section_idx st = List.length (sections st);
  inv_fresh : current_notes st = [] -> sections st = [];
  inv_ident : forall i s, nth_error (sections st) i = Some s ->
      Sec.id s = ("section-" ++ str_of_nat i)%string /\
      Sec.label s = ("Section " ++ str_of_nat (i + 1))%string /\
      Sec.difficulty s = 3%Z;
  inv_next : forall i s, nth_error (sections st) i = Some s ->
      Sec.endBeat s =
        match nth_error (sections st) (S i) with
        | Some s' => Sec.startBeat s'
        | None => section_start st
        end;
  inv_fits : forall i s, nth_error (sections st) i = Some s ->
      window_fits bps (Sec.startBeat s) (Nat.eqb i 0) (sec_notes s);
  inv_buffer :
      window_fits bps (section_start st)
        (Nat.eqb (List.length (sections st)) 0) (current_notes st)
}.

(** The notes are in the order of their [startBeat]. *)
Definition by_start (a b : NoteEvent) : Prop := startBeat a <= startBeat b.

(** The offset and the quarter length of an element. *)
Definition elt_offset (e : Element) : Q :=
  match e with
  | NoteElt _ o _ | ChordElt _ o _ | RestElt o _ => o
  end.

Definition elt_quarterLength (e : Element) : Q :=
  match e with
  | NoteElt _ _ d | ChordElt _ _ d | RestElt _ d => d
  end.

(** The number of pitches of the note and chord elements of a score. *)
Definition pitch_total (score : Score) : nat :=
  list_sum (map pitch_count (notesAndRests score)).

(** The slug of a file stem, [basename] in [convert_file]. *)
Definition slug (stem : string) : string :=
  py_replace "_" "-" (py_replace " " "-" (py_lower stem)).

(** What the slug does to one character. *)
Definition slug_char (c : ascii) : ascii :=
  let c1 := to_lower c in
  let c2 := if Ascii.eqb c1 " " then "-"%char else c1 in
  if Ascii.eqb c2 "_" then "-"%char else c2.

(** * Example scores *)

(** A chord held for 8 beats under two short notes: five events, the last of
    which starts at beat 3 and ends at beat 4. *)
Definition ex_overlap : Score :=
  {| notesAndRests :=
       [ NoteElt 62 1 1; ChordElt [64; 60; 67]%Z 0 8; RestElt 2 1; NoteElt 65 3 1 ];
     metronomeMarks := [];
     timeSignatures := [ mkTimeSignature 4 4 ];
     keySignatures := [];
     score_metadata := None |}.

(** Four notes, the last one ending at beat 21.5; no metronome mark. *)
Definition ex_trunc : Score :=
  {| notesAndRests :=
       [ NoteElt 60 0 1; NoteElt 62 1 1; NoteElt 64 2 1; NoteElt 65 (41 # 2) 1 ];
     metronomeMarks := [];
     timeSignatures := [];
     keySignatures := [];
     score_metadata := None |}.


(** Five notes at offsets 0 to 4, each one beat long, at tempo 120 in 4/4. *)
Definition ex_scenario : Score :=
  {| notesAndRests :=
       [ NoteElt 60 0 1; NoteElt 62 1 1; NoteElt 64 2 1; NoteElt 65 3 1; NoteElt 67 4 1 ];
     metronomeMarks := [ mkMetronomeMark (Some 120) ];
     timeSignatures := [ mkTimeSignature 4 4 ];
     keySignatures := [];
     score_metadata := None |}.

(** Four notes under a metronome mark of half a beat per minute. *)
Definition ex_slow : Score :=
  {| notesAndRests := [ NoteElt 60 0 1; NoteElt 62 1 1; NoteElt 64 2 1; NoteElt 65 3 1 ];
     metronomeMarks := [ mkMetronomeMark (Some (1 # 2)) ];
     timeSignatures := [ mkTimeSignature 4 4 ];
     keySignatures := [];
     score_metadata := None |}.

(** [ex_overlap] with its first two elements exchanged. *)
Definition ex_overlap_swapped : Score :=
  {| notesAndRests :=
       [ ChordElt [64; 60; 67]%Z 0 8; NoteElt 62 1 1; RestElt 2 1; NoteElt 65 3 1 ];
     metronomeMarks := [];
     timeSignatures := [ mkTimeSignature 4 4 ];
     keySignatures := [];
     score_metadata := None |}.

(** A note at beat 200, more than one window of 64 beats beyond the first. *)
Definition ex_far_note : NoteEvent := mkNoteEvent 72 200 1.

(** One chord of three pitches at offset 0, four beats long. *)
Definition ex_chord : Score :=
  {| notesAndRests := [ ChordElt [60; 64; 67]%Z 0 4 ];
     metronomeMarks := [ mkMetronomeMark (Some 120) ];
     timeSignatures := [ mkTimeSignature 4 4 ];
     keySignatures := [];
     score_metadata := None |}.

(** A score of rests only. *)
Definition ex_rests : Score :=
  {| notesAndRests := [ RestElt 0 4; RestElt 4 4 ];
     metronomeMarks := [];
     timeSignatures := [];
     keySignatures := [];
     score_metadata := None |}.

(** The notes of [ex_trunc]: three notes in the first three beats and one at
    beat 20.5. *)
Definition ex_notes_gap : list NoteEvent := score_to_note_events ex_trunc.

(** A file system with three notation files and a text file in one directory:
    [b.xml] parses to [ex_slow], on which the conversion raises. *)
Definition ex_parse (filepath : string) : option Score :=
  if String.eqb filepath "in/a.xml" then Some ex_scenario
  else if String.eqb filepath "in/b.xml" then Some ex_slow
  else if String.eqb filepath "in/c.mxl" then Some ex_overlap
  else None.

Definition ex_stem (filepath : string) : string :=
  substring 3 1 filepath.

Definition ex_walk (dir : string) : list (string * list string) :=
  [ (dir, [ "c.mxl"; "readme.txt"; "b.xml"; "a.xml" ]%string) ].

Definition ex_args_dir : Args :=
  {| arg_file := None; arg_input_dir := Some "in"%string;
     arg_output_dir := "out"%string |}.

Definition ex_args_file : Args :=
  {| arg_file := Some "in/a.xml"%string; arg_input_dir := None;
     arg_output_dir := "out"%string |}.

(** [ex_trunc] in 1/4 time: the note at beat 20.5 opens a second section. *)
Definition ex_two_sections : Score :=
  {| notesAndRests := notesAndRests ex_trunc;
     metronomeMarks := [];
     timeSignatures := [ mkTimeSignature 1 4 ];
     keySignatures := [];
     score_metadata := None |}.

(** Four notes, the last one ending at beat 123, at tempo 60. *)
Definition ex_long : Score :=
  {| notesAndRests :=
       [ NoteElt 60 0 1; NoteElt 62 1 1; NoteElt 64 2 1; NoteElt 65 122 1 ];
     metronomeMarks := [ mkMetronomeMark (Some 60) ];
     timeSignatures := [ mkTimeSignature 4 4 ];
     keySignatures := [];
     score_metadata := None |}.

(** Six notes, the last one ending at beat 5.5, at tempo 110. *)
Definition ex_boundary : Score :=
  {| notesAndRests :=
       [ NoteElt 60 0 1; NoteElt 62 1 1; NoteElt 64 2 1; NoteElt 65 3 1;
         NoteElt 67 4 1; NoteElt 69 (9 # 2) 1 ];
     metronomeMarks := [ mkMetronomeMark (Some 110) ];
     timeSignatures := [ mkTimeSignature 4 4 ];
     keySignatures := [];
     score_metadata := None |}.

(** Four notes under a metronome mark without a number. *)
Definition ex_no_number : Score :=
  {| notesAndRests := [ NoteElt 60 0 1; NoteElt 62 1 1; NoteElt 64 2 1; NoteElt 65 3 1 ];
     metronomeMarks := [ mkMetronomeMark None ];
     timeSignatures := [ mkTimeSignature 4 4 ];
     keySignatures := [];
     score_metadata := None |}.

(** * Properties *)

(** Proves [is_last_beat l m] for a concrete list [l] whose item of index
    [k] ends at [m]. *)
Ltac last_beat_at k :=
  split;
  [ eexists; split; [apply (nth_In _ (mkNoteEvent 0 0 0) (n := k)); simpl; lia | reflexivity]
  | let n := fresh "n" in
    let Hin := fresh "Hin" in
    intros n Hin; vm_compute in Hin;
    repeat (destruct Hin as [<-|Hin]; [unfold note_end, Qle; simpl; lia|]);
    destruct Hin ].

(** Proves [is_float_last_beat l m] for a concrete list [l] whose item of
    index [k] ends at [m]. *)
Ltac float_last_beat_at k :=
  split;
  [ eexists; split;
    [apply (nth_In _ (mkNoteEvent 0 0 0) (n := k)); simpl; lia | vm_compute; reflexivity]
  | let n := fresh "n" in
    let Hin := fresh "Hin" in
    intros n Hin; vm_compute in Hin;
    repeat (destruct Hin as [<-|Hin]; [vm_compute; discriminate|]);
    destruct Hin ].

(** Proves [StronglySorted by_start l] for a closed list [l]. *)
Ltac sorted_by_start l :=
  let v := eval vm_compute in l in
  change l with v;
  repeat first [ apply SSorted_nil | apply SSorted_cons
               | apply Forall_nil | apply Forall_cons ];
  unfold by_start, Qle; simpl; lia.

(** ** The loop of split_into_sections *)

Lemma split_loop_snoc (bps : Z) (l : list NoteEvent) (n : NoteEvent) :
  split_loop bps (l ++ [n]) = split_step bps (split_loop bps l) n.
Proof.
  unfold split_loop. rewrite fold_left_app. reflexivity.
Qed.

Lemma placed_notes_snoc (secs : list Sec.t) (s : Sec.t) :
  placed_notes (secs ++ [s]) = placed_notes secs ++ sec_notes s.
Proof.
  unfold placed_notes. rewrite map_app, concat_app. simpl.
  rewrite app_nil_r. reflexivity.
Qed.

Lemma window_start_succ (bps : Z) (i : nat) :
  window_start bps (S i) == window_start bps i + inject_Z bps.
Proof.
  unfold window_start. rewrite Nat2Z.inj_succ. unfold Z.succ.
  rewrite inject_Z_plus. ring.
Qed.

Lemma is_nonempty_true {A : Type} (l : list A) :
  is_nonempty l = true <-> l <> [].
Proof.
  destruct l; simpl; split; intros H; congruence.
Qed.

Lemma nth_error_snoc {A : Type} (l : list A) (x y : A) (i : nat) :
  nth_error (l ++ [x]) i = Some y ->
  (i < List.length l)%nat /\ nth_error l i = Some y \/ i = List.length l /\ y = x.
Proof.
  intros H. destruct (Nat.lt_ge_cases i (List.length l)) as [Hlt|Hge].
  - left. split; [exact Hlt|]. rewrite nth_error_app1 in H by exact Hlt. exact H.
  - right. rewrite nth_error_app2 in H by exact Hge.
    destruct (i - List.length l)%nat as [|k] eqn:E; simpl in H.
    + split; [lia | congruence].
    + destruct k; discriminate.
Qed.

Lemma loop_inv_init (bps : Z) : loop_inv bps [] split_init.
Proof.
  constructor; simpl.
  - reflexivity.
  - constructor.
  - intros H; congruence.
  - unfold window_start. simpl. ring.
  - reflexivity.
  - intros [|i] s H; discriminate.
Qed.

Lemma loop_inv_step (bps : Z) (done : list NoteEvent) (st : SplitState) (n : NoteEvent) :
  loop_inv bps done st -> loop_inv bps (done ++ [n]) (split_step bps st n).
Proof.
  intros [Hpart Hlay Hcur Hstart Hfirst Hclosed].
  unfold split_step. destruct (window_closes bps st n) eqn:Hw.
  - apply andb_true_iff in Hw. destruct Hw as [_ Hne].
    apply is_nonempty_true in Hne.
    constructor; simpl.
    + rewrite placed_notes_snoc. unfold sec_notes, closed_section. simpl.
      rewrite Hpart. reflexivity.
    + apply Forall_app. split; [exact Hlay|].
      constructor; [|constructor]. split; [reflexivity | exact Hne].
    + intros _ H; discriminate.
    + rewrite length_app. simpl. rewrite Nat.add_1_r.
      rewrite window_start_succ, Hstart. reflexivity.
    + destruct (sections st); simpl; [exact Hfirst | exact Hfirst].
    + intros i s H. apply nth_error_snoc in H. destruct H as [[_ H]|[Hi Hs]].
      * apply Hclosed; exact H.
      * subst. simpl. split; [exact Hstart | reflexivity].
  - constructor; simpl.
    + rewrite app_assoc, Hpart. reflexivity.
    + exact Hlay.
    + intros _ H. apply app_eq_nil in H. destruct H; discriminate.
    + exact Hstart.
    + exact Hfirst.
    + exact Hclosed.
Qed.

Lemma split_loop_inv (bps : Z) (notes : list NoteEvent) :
  loop_inv bps notes (split_loop bps notes).
Proof.
  induction notes as [|n l IH] using rev_ind.
  - apply loop_inv_init.
  - rewrite split_loop_snoc. apply loop_inv_step. exact IH.
Qed.

(** For a non-empty input the result is the closed sections followed by the
    final section, built from the last note of the buffer. *)
Lemma split_output (notes : list NoteEvent) (bpb bars : Z) :
  notes <> [] ->
  exists front last,
    let st := split_loop (bpb * bars) notes in
    current_notes st = front ++ [last] /\
    split_into_sections notes bpb bars = sections st ++ [final_section st last].
Proof.
  intros Hne. destruct notes as [|n0 l]; [congruence|].
  pose proof (split_loop_inv (bpb * bars) (n0 :: l)) as Hinv.
  pose proof (inv_current _ _ _ Hinv Hne) as Hcur.
  unfold split_into_sections, split_finish.
  destruct (rev (current_notes (split_loop (bpb * bars) (n0 :: l)))) as [|x r] eqn:E.
  - apply (f_equal (@rev NoteEvent)) in E. rewrite rev_involutive in E.
    simpl in E. congruence.
  - exists (rev r), x. simpl. split; [|reflexivity].
    apply (f_equal (@rev NoteEvent)) in E. rewrite rev_involutive in E.
    simpl in E. exact E.
Qed.

Lemma split_empty (bpb bars : Z) : split_into_sections [] bpb bars = [].
Proof. reflexivity. Qed.

Lemma split_nil_inv (notes : list NoteEvent) (bpb bars : Z) :
  split_into_sections notes bpb bars = [] -> notes = [].
Proof.
  intros H. destruct notes as [|n0 l]; [reflexivity|].
  destruct (split_output (n0 :: l) bpb bars) as (front & last & _ & Hout);
    [congruence|].
  cbv zeta in Hout. rewrite Hout in H.
  apply app_eq_nil in H. destruct H; discriminate.
Qed.

(** What every section of the result satisfies, by position. *)
Lemma split_sections_spec (notes : list NoteEvent) (bpb bars : Z) (i : nat) (s : Sec.t) :
  nth_error (split_into_sections notes bpb bars) i = Some s ->
  layers_ok s /\
  Sec.startBeat s == window_start (bpb * bars) i /\
  (i = 0%nat -> Sec.startBeat s = 0) /\
  ((S i < List.length (split_into_sections notes bpb bars))%nat ->
     Sec.endBeat s = Sec.startBeat s + inject_Z (bpb * bars)) /\
  ((S i = List.length (split_into_sections notes bpb bars))%nat ->
     exists front last, sec_notes s = front ++ [last] /\ Sec.endBeat s = note_end last).
Proof.
  destruct notes as [|n0 l].
  - rewrite split_empty. destruct i; discriminate.
  - destruct (split_output (n0 :: l) bpb bars) as (front & last & Hcur & Hout);
      [congruence|].
    cbv zeta in Hcur, Hout. rewrite Hout.
    pose proof (split_loop_inv (bpb * bars) (n0 :: l)) as Hinv.
    set (st := split_loop (bpb * bars) (n0 :: l)) in *.
    rewrite length_app. simpl List.length.
    intros H. apply nth_error_snoc in H. destruct H as [[Hlt H]|[Hi Hs]].
    + destruct (inv_closed _ _ _ Hinv i s H) as [Hs He].
      repeat split.
      * pose proof (inv_layers _ _ _ Hinv) as HF. rewrite Forall_forall in HF.
        apply HF. eapply nth_error_In; exact H.
      * pose proof (inv_layers _ _ _ Hinv) as HF. rewrite Forall_forall in HF.
        apply HF. eapply nth_error_In; exact H.
      * exact Hs.
      * intros ->. pose proof (inv_first _ _ _ Hinv) as Hf.
        destruct (sections st); simpl in H; [discriminate|].
        injection H as <-. exact Hf.
      * intros _. exact He.
      * intros Hl. lia.
    + subst i s. repeat split.
      * simpl. rewrite Hcur. intros E. apply app_eq_nil in E.
        destruct E; discriminate.
      * simpl. apply (inv_start _ _ _ Hinv).
      * intros E. simpl. pose proof (inv_first _ _ _ Hinv) as Hf.
        destruct (sections st); [exact Hf | discriminate].
      * intros Hl. lia.
      * intros _. exists front, last. split; [exact Hcur | reflexivity].
Qed.

Lemma split_partition (notes : list NoteEvent) (bpb bars : Z) :
  placed_notes (split_into_sections notes bpb bars) = notes.
Proof.
  destruct notes as [|n0 l]; [reflexivity|].
  destruct (split_output (n0 :: l) bpb bars) as (front & last & Hcur & Hout);
    [congruence|].
  cbv zeta in Hcur, Hout. rewrite Hout, placed_notes_snoc.
  apply (inv_partition _ _ _ (split_loop_inv (bpb * bars) (n0 :: l))).
Qed.

(** ** Claims on split_into_sections *)

(** C9: [split_into_sections] returns the empty list exactly when its input
    note list is empty; every non-empty input yields at least one section. *)
Theorem split_into_sections_empty_iff (notes : list NoteEvent) (bpb bars : Z) :
  split_into_sections notes bpb bars = [] <-> notes = [].
Proof.
  split.
  - apply split_nil_inv.
  - intros ->. apply split_empty.
Qed.

(** C10: in every section produced, [layers.melody] and [layers.full] are the
    same non-empty list, and the [layers.full] lists of the sections, appended
    in section order, give back the input note list. *)
Theorem split_into_sections_layers_partition (notes : list NoteEvent) (bpb bars : Z) :
  (forall s, In s (split_into_sections notes bpb bars) ->
     melody (Sec.layers s) = full (Sec.layers s) /\ full (Sec.layers s) <> []) /\
  List.concat (map (fun s => full (Sec.layers s)) (split_into_sections notes bpb bars))
    = notes.
Proof.
  split.
  - intros s Hin. apply In_nth_error in Hin. destruct Hin as [i Hi].
    apply (split_sections_spec notes bpb bars i s Hi).
  - apply split_partition.
Qed.

Lemma window_closes_iff (bps : Z) (st : SplitState) (n : NoteEvent) :
  window_closes bps st n = true <->
  section_start st + inject_Z bps <= startBeat n /\ current_notes st <> [].
Proof.
  unfold window_closes. rewrite andb_true_iff, Qle_bool_iff, is_nonempty_true.
  reflexivity.
Qed.

(** The result on a single note: one section, from beat 0, with this note. *)
Lemma split_singleton (n : NoteEvent) (bpb bars : Z) :
  split_into_sections [n] bpb bars
  = [final_section
       {| sections := []; current_notes := [n]; section_start := 0; section_idx := 0 |}
       n].
Proof.
  unfold split_into_sections, split_loop. cbn [fold_left].
  unfold split_step, window_closes. cbn [current_notes split_init is_nonempty].
  rewrite andb_false_r. reflexivity.
Qed.

(** The result on a non-empty input followed by one more note: the last
    section is closed at its window end and the note opens the next one, or
    the note joins the last section. *)
Lemma split_snoc (notes : list NoteEvent) (bpb bars : Z) :
  notes <> [] ->
  exists closed last_sec,
    split_into_sections notes bpb bars = closed ++ [last_sec] /\
    forall n,
      let width := inject_Z (bpb * bars) in
      (Sec.startBeat last_sec + width <= startBeat n ->
         exists sec_closed sec_new,
           split_into_sections (notes ++ [n]) bpb bars
             = closed ++ [sec_closed; sec_new] /\
           Sec.startBeat sec_closed = Sec.startBeat last_sec /\
           Sec.endBeat sec_closed = Sec.startBeat last_sec + width /\
           full (Sec.layers sec_closed) = full (Sec.layers last_sec) /\
           Sec.startBeat sec_new = Sec.startBeat last_sec + width /\
           full (Sec.layers sec_new) = [n]) /\
      (startBeat n < Sec.startBeat last_sec + width ->
         exists sec_ext,
           split_into_sections (notes ++ [n]) bpb bars = closed ++ [sec_ext] /\
           Sec.startBeat sec_ext = Sec.startBeat last_sec /\
           full (Sec.layers sec_ext) = full (Sec.layers last_sec) ++ [n]).
Proof.
  intros Hne.
  destruct (split_output notes bpb bars Hne) as (front & last & Hcur & Hout).
  cbv zeta in Hcur, Hout.
  exists (sections (split_loop (bpb * bars) notes)),
         (final_section (split_loop (bpb * bars) notes) last).
  split; [exact Hout|]. intros n width.
  assert (Hres : split_into_sections (notes ++ [n]) bpb bars
                 = split_finish (split_step (bpb * bars)
                                   (split_loop (bpb * bars) notes) n)).
  { destruct notes as [|n0 l]; [congruence|].
    rewrite <- split_loop_snoc. reflexivity. }
  rewrite Hres. clear Hres Hout.
  set (st := split_loop (bpb * bars) notes) in *. clearbody st.
  assert (Hn : is_nonempty (current_notes st) = true)
    by (rewrite Hcur; destruct front; reflexivity).
  unfold split_step, window_closes. rewrite Hn, andb_true_r.
  cbn [final_section Sec.startBeat Sec.layers full]. fold width.
  split.
  - intros Hle. apply Qle_bool_iff in Hle. rewrite Hle.
    eexists. eexists. split.
    + unfold split_finish. cbn [current_notes sections rev app].
      rewrite <- app_assoc. reflexivity.
    + cbn. repeat split; reflexivity.
  - intros Hlt.
    assert (Hf : Qle_bool (section_start st + width) (startBeat n) = false).
    { destruct (Qle_bool _ _) eqn:E; [|reflexivity].
      apply Qle_bool_iff in E. lra. }
    rewrite Hf. eexists. split.
    + unfold split_finish. cbn [current_notes sections].
      rewrite rev_app_distr. cbn [rev app]. reflexivity.
    + cbn. split; reflexivity.
Qed.

(** C6: the loop closes a window exactly when the note starts at or beyond
    the window end and the buffer is non-empty; the closed section ends at the
    nominal window end, the boundary moves by one window width and the note
    opens the new buffer, also when it starts more than one width beyond the
    boundary, so that it lies beyond the end of the window it is put in.  In
    the result the section of index [i] starts at [i] window widths and every
    section but the last ends one width after its start.  The result itself
    follows the loop: a single note gives one section from beat 0; one more
    note at or beyond the window end of the last section closes it at this
    window end and alone forms the next section, which starts one width
    later, however far the note lies; a note before this window end joins the
    last section. *)
Theorem sectionizer_single_advance :
  (forall (bps : Z) (st : SplitState) (n : NoteEvent),
     let st' := split_step bps st n in
     let closing :=
       section_start st + inject_Z bps <= startBeat n /\ current_notes st <> [] in
     (List.length (sections st') = S (List.length (sections st)) <-> closing) /\
     (closing ->
        exists sec,
          sections st' = sections st ++ [sec] /\
          Sec.startBeat sec = section_start st /\
          Sec.endBeat sec = section_start st + inject_Z bps /\
          full (Sec.layers sec) = current_notes st /\
          section_start st' = section_start st + inject_Z bps /\
          current_notes st' = [n]) /\
     (~ closing ->
        sections st' = sections st /\
        section_start st' = section_start st /\
        current_notes st' = current_notes st ++ [n]) /\
     (closing ->
        section_start st + inject_Z bps + inject_Z bps <= startBeat n ->
        section_start st' = section_start st + inject_Z bps /\
        current_notes st' = [n] /\
        section_start st' + inject_Z bps <= startBeat n)) /\
  (forall (notes : list NoteEvent) (beats_per_bar : Z) (i : nat) (s : Sec.t),
     let secs := split_into_sections notes beats_per_bar 16 in
     nth_error secs i = Some s ->
     Sec.startBeat s == inject_Z (Z.of_nat i) * inject_Z (beats_per_bar * 16) /\
     ((S i < List.length secs)%nat ->
        Sec.endBeat s = Sec.startBeat s + inject_Z (beats_per_bar * 16))) /\
  (forall (n : NoteEvent) (beats_per_bar : Z),
     exists s,
       split_into_sections [n] beats_per_bar 16 = [s] /\
       Sec.startBeat s = 0 /\ full (Sec.layers s) = [n]) /\
  (forall (notes : list NoteEvent) (beats_per_bar : Z),
     notes <> [] ->
     exists closed last_sec,
       split_into_sections notes beats_per_bar 16 = closed ++ [last_sec] /\
       forall n,
         let width := inject_Z (beats_per_bar * 16) in
         (Sec.startBeat last_sec + width <= startBeat n ->
            exists sec_closed sec_new,
              split_into_sections (notes ++ [n]) beats_per_bar 16
                = closed ++ [sec_closed; sec_new] /\
              Sec.startBeat sec_closed = Sec.startBeat last_sec /\
              Sec.endBeat sec_closed = Sec.startBeat last_sec + width /\
              full (Sec.layers sec_closed) = full (Sec.layers last_sec) /\
              Sec.startBeat sec_new = Sec.startBeat last_sec + width /\
              full (Sec.layers sec_new) = [n] /\
              (Sec.startBeat last_sec + width + width <= startBeat n ->
                 Sec.startBeat sec_new + width <= startBeat n)) /\
         (startBeat n < Sec.startBeat last_sec + width ->
            exists sec_ext,
              split_into_sections (notes ++ [n]) beats_per_bar 16
                = closed ++ [sec_ext] /\
              Sec.startBeat sec_ext = Sec.startBeat last_sec /\
              full (Sec.layers sec_ext) = full (Sec.layers last_sec) ++ [n])).
Proof.
  split; [|split; [|split]].
  - intros bps st n st' closing.
    pose proof (window_closes_iff bps st n) as Hiff. fold closing in Hiff.
    unfold st', split_step.
    destruct (window_closes bps st n) eqn:Hw; simpl.
    + assert (Hc : closing) by (apply Hiff; reflexivity).
      split; [|split; [|split]].
      * split; [intros _; exact Hc | intros _; rewrite length_app; simpl; lia].
      * intros _. exists (closed_section bps st). simpl. tauto.
      * intros Hn. contradiction.
      * intros _ Hfar. split; [reflexivity|]. split; [reflexivity | exact Hfar].
    + assert (Hc : ~ closing) by (intros Hc; apply Hiff in Hc; discriminate).
      split; [|split; [|split]].
      * split; [intros H; lia | intros H; contradiction].
      * intros H. contradiction.
      * intros _. tauto.
      * intros H. contradiction.
  - intros notes bpb i s secs H.
    destruct (split_sections_spec notes bpb 16 i s H) as (_ & Hs & _ & He & _).
    split; [exact Hs | exact He].
  - intros n bpb. eexists. split; [apply split_singleton|].
    split; reflexivity.
  - intros notes bpb Hne.
    destruct (split_snoc notes bpb 16 Hne) as (closed & last_sec & Hout & Hn).
    exists closed, last_sec. split; [exact Hout|].
    intros n width. destruct (Hn n) as [Hclose Hjoin]. fold width in Hclose, Hjoin.
    split; [|exact Hjoin].
    intros Hle.
    destruct (Hclose Hle) as (sc & sn & E & H1 & H2 & H3 & H4 & H5).
    exists sc, sn. repeat (split; [assumption|]).
    intros Hfar. rewrite H4. exact Hfar.
Qed.

Lemma sectionizer_single_advance_witness :
  exists sec_closed sec_new,
    split_into_sections ([mkNoteEvent 60 0 1] ++ [ex_far_note]) 4 16
      = [sec_closed; sec_new] /\
    Sec.startBeat sec_closed = 0 /\
    Sec.endBeat sec_closed = 0 + inject_Z (4 * 16) /\
    full (Sec.layers sec_closed) = [mkNoteEvent 60 0 1] /\
    Sec.startBeat sec_new = 0 + inject_Z (4 * 16) /\
    full (Sec.layers sec_new) = [ex_far_note] /\
    Sec.startBeat sec_new + inject_Z (4 * 16) <= startBeat ex_far_note.
Proof.
  destruct sectionizer_single_advance as (_ & _ & Hone & Hsnoc).
  destruct (Hone (mkNoteEvent 60 0 1) 4%Z) as (s0 & E0 & Hs0 & Hl0).
  destruct (Hsnoc [mkNoteEvent 60 0 1] 4%Z) as (closed & last_sec & Hout & Hn);
    [discriminate|].
  rewrite E0 in Hout. apply (app_inj_tail [] closed) in Hout.
  destruct Hout as [<- <-].
  destruct (Hn ex_far_note) as [Hclose _]. rewrite Hs0, Hl0 in Hclose.
  destruct Hclose as (sc & sn & E & H1 & H2 & H3 & H4 & H5 & Hfar).
  - vm_compute. discriminate.
  - exists sc, sn. split; [exact E|].
    repeat (split; [assumption|]).
    apply Hfar. vm_compute. discriminate.
Defined.

(** ** Integer conversion and maxima *)

Lemma py_int_truncate (x : Q) : py_int x = truncate x.
Proof.
  unfold py_int, truncate. destruct x as [n d]. simpl.
  destruct (Qle_bool 0 (n # d)) eqn:E.
  - apply Qle_bool_iff in E. unfold Qle in E. simpl in E.
    apply Z.quot_div_nonneg; lia.
  - assert (Hn : (n < 0)%Z).
    { destruct (Z_lt_le_dec n 0) as [H|H]; [exact H|].
      assert (Qle_bool 0 (n # d) = true) as E'
        by (apply Qle_bool_iff; unfold Qle; simpl; lia).
      congruence. }
    unfold Qceiling, Qfloor. simpl.
    replace n with (- (- n))%Z at 1 by lia.
    rewrite Z.quot_opp_l by lia.
    rewrite Z.quot_div_nonneg by lia. reflexivity.
Qed.

Lemma py_max2_ge_l (a b : Q) : a <= py_max2 a b.
Proof. unfold py_max2. destruct (Qlt_le_dec a b); lra. Qed.

Lemma py_max2_ge_r (a b : Q) : b <= py_max2 a b.
Proof. unfold py_max2. destruct (Qlt_le_dec a b); lra. Qed.

Lemma py_max2_cases (a b : Q) : py_max2 a b = a \/ py_max2 a b = b.
Proof. unfold py_max2. destruct (Qlt_le_dec a b); auto. Qed.

Lemma py_max_ge_init (x : Q) (xs : list Q) : x <= py_max x xs.
Proof.
  unfold py_max. revert x. induction xs as [|y ys IH]; intros x; simpl.
  - lra.
  - specialize (IH (py_max2 x y)). pose proof (py_max2_ge_l x y). lra.
Qed.

Lemma py_max_ge (x : Q) (xs : list Q) (y : Q) : In y xs -> y <= py_max x xs.
Proof.
  unfold py_max. revert x. induction xs as [|z zs IH]; intros x Hin; simpl.
  - destruct Hin.
  - destruct Hin as [->|Hin].
    + pose proof (py_max_ge_init (py_max2 x y) zs) as H. unfold py_max in H.
      pose proof (py_max2_ge_r x y). lra.
    + apply IH. exact Hin.
Qed.

Lemma py_max_in (x : Q) (xs : list Q) : In (py_max x xs) (x :: xs).
Proof.
  unfold py_max. revert x. induction xs as [|z zs IH]; intros x; simpl.
  - left. reflexivity.
  - destruct (IH (py_max2 x z)) as [H|H].
    + rewrite <- H. destruct (py_max2_cases x z) as [E|E]; rewrite E; auto.
    + right. right. exact H.
Qed.

(** ** Binary64 rounding *)

Lemma rhe_range (x : Q) :
  (Qfloor x <= round_half_even x <= Qfloor x + 1)%Z.
Proof.
  unfold round_half_even.
  destruct (Qcompare (x - inject_Z (Qfloor x)) (1 # 2)); [destruct (Z.even _)| |]; lia.
Qed.

Lemma rhe_mono (x y : Q) : x <= y -> (round_half_even x <= round_half_even y)%Z.
Proof.
  intros Hxy. pose proof (Qfloor_resp_le _ _ Hxy) as Hf.
  destruct (Z.eq_dec (Qfloor x) (Qfloor y)) as [E|E].
  - unfold round_half_even. rewrite <- E.
    assert (Hd : x - inject_Z (Qfloor x) <= y - inject_Z (Qfloor x)) by lra.
    set (dx := x - inject_Z (Qfloor x)) in *.
    set (dy := y - inject_Z (Qfloor x)) in *.
    destruct (Qcompare_spec dx (1 # 2)) as [Cx|Cx|Cx];
      destruct (Qcompare_spec dy (1 # 2)) as [Cy|Cy|Cy];
      try (destruct (Z.even (Qfloor x))); try lia; exfalso; lra.
  - pose proof (rhe_range x). pose proof (rhe_range y). lia.
Qed.

Lemma rhe_Z (z : Z) : round_half_even (inject_Z z) = z.
Proof.
  unfold round_half_even. rewrite Qfloor_Z.
  assert (E : Qcompare (inject_Z z - inject_Z z) (1 # 2) = Lt) by (apply (proj1 (Qlt_alt _ _)); lra).
  rewrite E. reflexivity.
Qed.

Lemma pow2_pos (e : Z) : 0 < 2 ^ e.
Proof. apply Qpower_0_lt. reflexivity. Qed.

Lemma pow2_le (a b : Z) : (a <= b)%Z -> 2 ^ a <= 2 ^ b.
Proof. intros H. apply Qpower_le_compat_l; [exact H | discriminate]. Qed.

Lemma pow2_Z (n : Z) : (0 <= n)%Z -> inject_Z (2 ^ n) == 2 ^ n.
Proof. intros H. apply (Zpower_Qpower 2 n H). Qed.

Lemma ilog2_spec (x : Q) : 0 < x -> 2 ^ ilog2 x <= x /\ x < 2 ^ (ilog2 x + 1).
Proof.
  intros Hx. destruct x as [n d]. unfold ilog2. simpl Qnum. simpl Qden.
  assert (Hn : (0 < n)%Z) by (unfold Qlt in Hx; simpl in Hx; lia).
  set (a := Z.log2 n). set (b := Z.log2 (Z.pos d)).
  assert (Ha : (0 <= a)%Z) by apply Z.log2_nonneg.
  assert (Hb : (0 <= b)%Z) by apply Z.log2_nonneg.
  destruct (Z.log2_spec n Hn) as [Ha1 Ha2]. fold a in Ha1, Ha2.
  destruct (Z.log2_spec (Z.pos d) (Pos2Z.is_pos d)) as [Hb1 Hb2]. fold b in Hb1, Hb2.
  assert (Hx' : n # d == inject_Z n / inject_Z (Z.pos d)) by apply Qmake_Qdiv.
  assert (Hd : 0 < inject_Z (Z.pos d)) by reflexivity.
  (* bounds in Q *)
  assert (Qa1 : 2 ^ a <= inject_Z n) by (rewrite <- pow2_Z by lia; rewrite <- Zle_Qle; exact Ha1).
  assert (Qa2 : inject_Z n < 2 ^ (a + 1))
    by (rewrite <- pow2_Z by lia; rewrite <- Zlt_Qlt; rewrite <- Z.add_1_r in Ha2; exact Ha2).
  assert (Qb1 : 2 ^ b <= inject_Z (Z.pos d)) by (rewrite <- pow2_Z by lia; rewrite <- Zle_Qle; exact Hb1).
  assert (Qb2 : inject_Z (Z.pos d) < 2 ^ (b + 1))
    by (rewrite <- pow2_Z by lia; rewrite <- Zlt_Qlt; rewrite <- Z.add_1_r in Hb2; exact Hb2).
  assert (Hup : n # d < 2 ^ (a - b + 1)).
  { rewrite Hx'. apply Qlt_shift_div_r; [exact Hd|].
    assert (E : 2 ^ (a + 1) == 2 ^ (a - b + 1) * 2 ^ b).
    { rewrite <- Qpower_plus by discriminate. f_equiv. lia. }
    pose proof (pow2_pos (a - b + 1)).
    assert (2 ^ (a - b + 1) * 2 ^ b <= 2 ^ (a - b + 1) * inject_Z (Z.pos d))
      by (apply Qmult_le_l; assumption).
    lra. }
  assert (Hlo : 2 ^ (a - b - 1) <= n # d).
  { rewrite Hx'. apply Qle_shift_div_l; [exact Hd|].
    assert (E : 2 ^ a == 2 ^ (a - b - 1) * 2 ^ (b + 1)).
    { rewrite <- Qpower_plus by discriminate. f_equiv. lia. }
    pose proof (pow2_pos (a - b - 1)).
    assert (2 ^ (a - b - 1) * inject_Z (Z.pos d) <= 2 ^ (a - b - 1) * 2 ^ (b + 1))
      by (apply Qmult_le_l; [assumption | lra]).
    lra. }
  destruct (Qle_bool (2 ^ (a - b)) (n # d)) eqn:E.
  - apply Qle_bool_iff in E. split; assumption.
  - split; [exact Hlo|].
    replace (a - b - 1 + 1)%Z with (a - b)%Z by lia.
    apply Qnot_le_lt. intros H. apply Qle_bool_iff in H. congruence.
Qed.

Lemma ilog2_mono (x y : Q) : 0 < x -> x <= y -> (ilog2 x <= ilog2 y)%Z.
Proof.
  intros Hx Hxy.
  destruct (ilog2_spec x Hx) as [Hx1 _].
  destruct (ilog2_spec y) as [_ Hy2]; [lra|].
  destruct (Z_le_gt_dec (ilog2 x) (ilog2 y)) as [H|H]; [exact H|].
  exfalso. assert (2 ^ (ilog2 y + 1) <= 2 ^ ilog2 x) by (apply pow2_le; lia). lra.
Qed.

(** Rounding to a multiple of [2 ^ e] does not cross a multiple of [2 ^ e]. *)
Lemma round_at_le (e k : Z) (x : Q) :
  x <= inject_Z k * 2 ^ e ->
  inject_Z (round_half_even (x / 2 ^ e)) * 2 ^ e <= inject_Z k * 2 ^ e.
Proof.
  intros H. pose proof (pow2_pos e) as Hp.
  apply Qmult_le_compat_r; [|lra].
  rewrite <- Zle_Qle. rewrite <- (rhe_Z k). apply rhe_mono.
  apply Qle_shift_div_r; assumption.
Qed.

Lemma round_at_ge (e k : Z) (x : Q) :
  inject_Z k * 2 ^ e <= x ->
  inject_Z k * 2 ^ e <= inject_Z (round_half_even (x / 2 ^ e)) * 2 ^ e.
Proof.
  intros H. pose proof (pow2_pos e) as Hp.
  apply Qmult_le_compat_r; [|lra].
  rewrite <- Zle_Qle. rewrite <- (rhe_Z k) at 1. apply rhe_mono.
  apply Qle_shift_div_l; assumption.
Qed.

Lemma pow2_multiple (e j : Z) : (e <= j)%Z -> 2 ^ j == inject_Z (2 ^ (j - e)) * 2 ^ e.
Proof.
  intros H. rewrite pow2_Z by lia. rewrite <- Qpower_plus by discriminate.
  f_equiv. lia.
Qed.

Lemma round_pos_mono (x y : Q) : 0 < x -> x <= y -> round_pos x <= round_pos y.
Proof.
  intros Hx Hxy. assert (Hy : 0 < y) by lra.
  pose proof (ilog2_mono x y Hx Hxy) as Hi.
  unfold round_pos.
  destruct (Z.eq_dec (ulp_exp x) (ulp_exp y)) as [E|E].
  - rewrite E. pose proof (pow2_pos (ulp_exp y)) as Hp.
    apply Qmult_le_compat_r; [|lra].
    rewrite <- Zle_Qle. apply rhe_mono.
    apply Qmult_le_compat_r; [exact Hxy|]. apply Qinv_le_0_compat. lra.
  - assert (Hlt : (ulp_exp x < ulp_exp y)%Z) by (unfold ulp_exp in *; lia).
    assert (Hey : ulp_exp y = (ilog2 y - 52)%Z) by (unfold ulp_exp in *; lia).
    assert (Hix : (ilog2 x + 1 <= ilog2 y)%Z) by (unfold ulp_exp in *; lia).
    destruct (ilog2_spec x Hx) as [_ Hx2].
    destruct (ilog2_spec y Hy) as [Hy1 _].
    assert (Hc1 : x <= 2 ^ ilog2 y).
    { assert (2 ^ (ilog2 x + 1) <= 2 ^ ilog2 y) by (apply pow2_le; exact Hix). lra. }
    apply Qle_trans with (2 ^ ilog2 y).
    + rewrite (pow2_multiple (ulp_exp x) (ilog2 y)) by lia.
      apply round_at_le. rewrite <- pow2_multiple by lia. exact Hc1.
    + rewrite (pow2_multiple (ulp_exp y) (ilog2 y)) at 1 by lia.
      apply round_at_ge. rewrite <- pow2_multiple by lia. exact Hy1.
Qed.

Lemma round_pos_nonneg (x : Q) : 0 < x -> 0 <= round_pos x.
Proof.
  intros Hx. unfold round_pos. pose proof (pow2_pos (ulp_exp x)) as Hp.
  assert (Hr : (0 <= round_half_even (x / 2 ^ ulp_exp x))%Z).
  { rewrite <- (rhe_Z 0) at 1. apply rhe_mono.
    apply Qle_shift_div_l; [exact Hp|].
    change (inject_Z 0) with 0. rewrite Qmult_0_l. lra. }
  apply Qmult_le_0_compat; [|lra].
  change 0 with (inject_Z 0). rewrite <- Zle_Qle. exact Hr.
Qed.

Lemma rnd_mono (x y : Q) : x <= y -> rnd x <= rnd y.
Proof.
  intros Hxy. unfold rnd.
  destruct (Qcompare_spec x 0) as [Cx|Cx|Cx];
    destruct (Qcompare_spec y 0) as [Cy|Cy|Cy];
    rewrite ?Qred_correct; try lra.
  - apply round_pos_nonneg. exact Cy.
  - pose proof (round_pos_nonneg (- x)). lra.
  - assert (H : round_pos (- y) <= round_pos (- x)) by (apply round_pos_mono; lra).
    lra.
  - pose proof (round_pos_nonneg (- x)). pose proof (round_pos_nonneg y). lra.
  - apply round_pos_mono; lra.
Qed.

Lemma rnd_comp (x y : Q) : x == y -> rnd x = rnd y.
Proof.
  intros H. assert (E : rnd x == rnd y).
  { apply Qle_antisym; apply rnd_mono; lra. }
  (* both are in reduced form *)
  assert (R : forall z, Qred (rnd z) = rnd z).
  { intros z. unfold rnd. destruct (z ?= 0); [reflexivity| |];
      apply Qred_complete, Qred_correct. }
  rewrite <- (R x), <- (R y). apply Qred_complete. exact E.
Qed.

Lemma rnd_0 : rnd 0 = 0.
Proof. reflexivity. Qed.

Lemma rnd_1 : rnd 1 = 1.
Proof. vm_compute. reflexivity. Qed.

Lemma rnd_opp_1 : rnd (- (1)) = - (1).
Proof. vm_compute. reflexivity. Qed.

Lemma rnd_nonneg (x : Q) : 0 <= x -> 0 <= rnd x.
Proof. intros H. rewrite <- rnd_0. apply rnd_mono. exact H. Qed.

Lemma rnd_nonpos (x : Q) : x <= 0 -> rnd x <= 0.
Proof. intros H. rewrite <- rnd_0. apply rnd_mono. exact H. Qed.

Lemma float_of_int_mono (a b : Z) : (a <= b)%Z -> float_of_int a <= float_of_int b.
Proof. intros H. apply rnd_mono. rewrite <- Zle_Qle. exact H. Qed.

(** [float(z)] is zero for [z = 0] only. *)
Lemma float_of_int_zero_iff (z : Z) : float_of_int z == 0 <-> z = 0%Z.
Proof.
  split.
  - intros H. destruct (Z.eq_dec z 0) as [E|E]; [exact E|exfalso].
    destruct (Z_lt_le_dec z 0) as [Hn|Hp].
    + assert (H1 : float_of_int z <= float_of_int (-1)) by (apply float_of_int_mono; lia).
      change (float_of_int (-1)) with (rnd (- (1))) in H1. rewrite rnd_opp_1 in H1. lra.
    + assert (H1 : float_of_int 1 <= float_of_int z) by (apply float_of_int_mono; lia).
      change (float_of_int 1) with (rnd 1) in H1. rewrite rnd_1 in H1. lra.
  - intros ->. reflexivity.
Qed.

Lemma float_of_int_pos (z : Z) : (0 < z)%Z -> 1 <= float_of_int z.
Proof.
  intros H. assert (H1 : float_of_int 1 <= float_of_int z)
    by (apply float_of_int_mono; lia).
  change (float_of_int 1) with (rnd 1) in H1. rewrite rnd_1 in H1. exact H1.
Qed.


(** ** The estimators *)

Lemma fdiv_returns (x y : Q) : ~ y == 0 -> fdiv x y = Returned (rnd (x / y)).
Proof.
  intros H. unfold fdiv. destruct (Qeq_bool y 0) eqn:E; [|reflexivity].
  apply Qeq_bool_iff in E. contradiction.
Qed.

Lemma py_max_is_float_last_beat (n : NoteEvent) (ns : list NoteEvent) :
  is_float_last_beat (n :: ns) (py_max (float_end n) (map float_end ns)).
Proof.
  split.
  - pose proof (py_max_in (float_end n) (map float_end ns)) as H.
    change (float_end n :: map float_end ns) with (map float_end (n :: ns)) in H.
    apply in_map_iff in H. destruct H as (k & Hk & Hin).
    exists k. split; [exact Hin | rewrite Hk; reflexivity].
  - intros k [<-|Hin].
    + apply py_max_ge_init.
    + apply py_max_ge. apply in_map. exact Hin.
Qed.

Lemma is_float_last_beat_unique (notes : list NoteEvent) (a b : Q) :
  is_float_last_beat notes a -> is_float_last_beat notes b -> a == b.
Proof.
  intros [(na & Ha & Ea) Ua] [(nb & Hb & Eb) Ub].
  specialize (Ua nb Hb). specialize (Ub na Ha). lra.
Qed.

Lemma estimate_difficulty_cons (n : NoteEvent) (ns : list NoteEvent) (tempo : Z) :
  let score := difficulty_score n ns tempo in
  estimate_difficulty (n :: ns) tempo =
    if Qlt_le_dec score (1 # 2) then Returned 1%Z
    else if Qlt_le_dec score 1 then Returned 2%Z
    else if Qlt_le_dec score 2 then Returned 3%Z
    else if Qlt_le_dec score 3 then Returned 4%Z
    else Returned 5%Z.
Proof.
  unfold estimate_difficulty, difficulty_score.
  rewrite fdiv_returns.
  - reflexivity.
  - pose proof (py_max2_ge_r (py_max (float_end n) (map float_end ns)) 1). lra.
Qed.

(** [estimate_difficulty] never raises and its result is in 1..5. *)
Lemma estimate_difficulty_total (notes : list NoteEvent) (tempo : Z) :
  exists d, estimate_difficulty notes tempo = Returned d /\ (1 <= d <= 5)%Z.
Proof.
  destruct notes as [|n ns].
  - exists 1%Z. split; [reflexivity | lia].
  - rewrite estimate_difficulty_cons. cbv zeta.
    generalize (difficulty_score n ns tempo). intros c.
    repeat (destruct (Qlt_le_dec c _); [eexists; split; [reflexivity | lia]|]).
    eexists; split; [reflexivity | lia].
Qed.

Lemma estimate_duration_cons (n : NoteEvent) (ns : list NoteEvent) (tempo : Z) :
  tempo <> 0%Z ->
  estimate_duration (n :: ns) tempo =
    Returned (Z.max (py_int (fmul (rnd (py_max (float_end n) (map float_end ns)
                                        / float_of_int tempo)) 60)) 10).
Proof.
  intros Ht. unfold estimate_duration. rewrite fdiv_returns; [reflexivity|].
  intros H. apply Ht. apply (proj1 (float_of_int_zero_iff tempo)). exact H.
Qed.

Lemma estimate_duration_zero_tempo (n : NoteEvent) (ns : list NoteEvent) :
  estimate_duration (n :: ns) 0 = Raised ZeroDivisionError.
Proof. reflexivity. Qed.

(** ** convert_file *)

Lemma len_ge_4_cons {A : Type} (l : list A) :
  (4 <= len l)%Z -> exists x l', l = x :: l'.
Proof.
  destruct l as [|x l']; unfold len; simpl; intros H; [lia|].
  exists x, l'. reflexivity.
Qed.

(** What is known of a document that [convert_file] returns. *)
Lemma convert_file_accepted (stem : string) (parsed : option Score) (doc : Song.t) :
  convert_file stem parsed = Returned (Some doc) ->
  exists score d,
    parsed = Some score /\
    (4 <= len (score_to_note_events score))%Z /\
    Song.tempo (Song.settings doc) <> 0%Z /\
    estimate_difficulty (score_to_note_events score) (Song.tempo (Song.settings doc))
      = Returned d /\
    estimate_duration (score_to_note_events score) (Song.tempo (Song.settings doc))
      = Returned (Song.durationSeconds (Song.metadata doc)) /\
    Song.difficulty (Song.metadata doc) = Z.min 5 (Z.max 1 d) /\
    Song.sections doc =
      split_into_sections (score_to_note_events score)
        (fst (extract_time_signature score)) 16 /\
    extract_tempo score = Returned (Song.tempo (Song.settings doc)).
Proof.
  unfold convert_file. destruct parsed as [score|]; [|discriminate].
  destruct (len (score_to_note_events score) <? 4)%Z eqn:Hlen; [discriminate|].
  apply Z.ltb_ge in Hlen.
  destruct (extract_tempo score) as [tempo|e] eqn:Ht; cbn [bind]; [|discriminate].
  destruct (estimate_difficulty (score_to_note_events score) tempo)
    as [d|e] eqn:Hd; cbn [bind]; [|discriminate].
  destruct (is_nonempty _); cbn [negb]; [|discriminate].
  destruct (derive_title_artist _ _) as [title artist].
  destruct (estimate_duration (score_to_note_events score) tempo)
    as [secs|e] eqn:Hs; cbn [bind]; [|discriminate].
  intros H. injection H as <-. simpl.
  exists score, d. repeat split; try reflexivity; try assumption.
  intros Hz. rewrite Hz in Hs.
  destruct (len_ge_4_cons _ Hlen) as (x & l' & E). rewrite E in Hs.
  rewrite estimate_duration_zero_tempo in Hs. discriminate.
Qed.

Lemma accepted_sections_test (score : Score) :
  (4 <= len (score_to_note_events score))%Z ->
  is_nonempty
    (split_into_sections (score_to_note_events score)
       (fst (extract_time_signature score)) 16) = true.
Proof.
  intros Hlen. destruct (len_ge_4_cons _ Hlen) as (x & l' & El).
  apply is_nonempty_true. intros Hnil.
  apply split_nil_inv in Hnil. congruence.
Qed.

(** When a parsed score with at least four notes has a non-zero tempo, a
    document is returned. *)
Lemma convert_file_returns (stem : string) (score : Score) (tempo : Z) :
  (4 <= len (score_to_note_events score))%Z ->
  extract_tempo score = Returned tempo ->
  tempo <> 0%Z ->
  exists doc, convert_file stem (Some score) = Returned (Some doc).
Proof.
  intros Hlen Ht Hz. unfold convert_file.
  destruct (len (score_to_note_events score) <? 4)%Z eqn:E;
    [apply Z.ltb_lt in E; lia|].
  rewrite Ht. cbn [bind].
  destruct (estimate_difficulty_total (score_to_note_events score) tempo)
    as (d & Hd & _).
  rewrite Hd. cbn [bind].
  rewrite (accepted_sections_test score Hlen). cbn [negb].
  destruct (derive_title_artist _ _) as [title artist].
  destruct (len_ge_4_cons _ Hlen) as (x & l' & El).
  pose proof (estimate_duration_cons x l' _ Hz) as Hs. rewrite <- El in Hs.
  rewrite Hs. cbn [bind]. eexists. reflexivity.
Qed.

(** With a zero tempo and at least four notes the call raises. *)
Lemma convert_file_zero_tempo (stem : string) (score : Score) :
  (4 <= len (score_to_note_events score))%Z ->
  extract_tempo score = Returned 0%Z ->
  convert_file stem (Some score) = Raised ZeroDivisionError.
Proof.
  intros Hlen Ht. unfold convert_file.
  destruct (len (score_to_note_events score) <? 4)%Z eqn:E;
    [apply Z.ltb_lt in E; lia|].
  rewrite Ht. cbn [bind].
  destruct (estimate_difficulty_total (score_to_note_events score) 0)
    as (d & Hd & _).
  rewrite Hd. cbn [bind].
  rewrite (accepted_sections_test score Hlen). cbn [negb].
  destruct (derive_title_artist _ _) as [title artist].
  destruct (len_ge_4_cons _ Hlen) as (x & l' & El).
  pose proof (estimate_duration_zero_tempo x l') as Hs. rewrite <- El in Hs.
  rewrite Hs. reflexivity.
Qed.

(** When the tempo cannot be extracted from a score with at least four
    notes, the call raises what [extract_tempo] raises. *)
Lemma convert_file_no_tempo (stem : string) (score : Score) (e : exn) :
  (4 <= len (score_to_note_events score))%Z ->
  extract_tempo score = Raised e ->
  convert_file stem (Some score) = Raised e.
Proof.
  intros Hlen Ht. unfold convert_file.
  destruct (len (score_to_note_events score) <? 4)%Z eqn:E;
    [apply Z.ltb_lt in E; lia|].
  rewrite Ht. reflexivity.
Qed.

Lemma convert_file_too_few (stem : string) (score : Score) :
  (len (score_to_note_events score) < 4)%Z ->
  convert_file stem (Some score) = Returned None.
Proof.
  intros H. unfold convert_file. apply Z.ltb_lt in H. rewrite H. reflexivity.
Qed.

Lemma window_start_mono (bps : Z) (i j : nat) :
  (0 <= bps)%Z -> (i <= j)%nat -> window_start bps i <= window_start bps j.
Proof.
  intros Hb Hij. unfold window_start.
  apply Qmult_le_compat_r.
  - rewrite <- Zle_Qle. lia.
  - change 0 with (inject_Z 0). rewrite <- Zle_Qle. exact Hb.
Qed.

Lemma beats_per_bar_nonneg (score : Score) :
  (0 <= fst (extract_time_signature score))%Z.
Proof.
  unfold extract_time_signature. destruct (timeSignatures score); simpl; lia.
Qed.

Lemma nth_error_last_snoc {A : Type} (l : list A) (x : A) :
  nth_error (l ++ [x]) (List.length l) = Some x.
Proof.
  rewrite nth_error_app2 by lia. rewrite Nat.sub_diag. reflexivity.
Qed.

Lemma accepted_sections_nonempty (score : Score) (bars : Z) :
  (4 <= len (score_to_note_events score))%Z ->
  split_into_sections (score_to_note_events score)
    (fst (extract_time_signature score)) bars <> [].
Proof.
  intros Hlen Hnil. apply split_nil_inv in Hnil.
  destruct (len_ge_4_cons _ Hlen) as (x & l' & E). congruence.
Qed.

(** ** Claims on accepted files *)

(** C5: the sections of a returned document are non-empty, their [startBeat]
    values never decrease along the list, and the first one starts at 0. *)
Theorem accepted_sections_ordered
    (stem : string) (parsed : option Score) (doc : Song.t) :
  convert_file stem parsed = Returned (Some doc) ->
  Song.sections doc <> [] /\
  (forall i j si sj, (i <= j)%nat ->
     nth_error (Song.sections doc) i = Some si ->
     nth_error (Song.sections doc) j = Some sj ->
     Sec.startBeat si <= Sec.startBeat sj) /\
  (exists s rest, Song.sections doc = s :: rest /\ Sec.startBeat s = 0).
Proof.
  intros H. apply convert_file_accepted in H.
  destruct H as (score & d & _ & Hlen & _ & _ & _ & _ & Hsec & _).
  rewrite Hsec.
  set (notes := score_to_note_events score).
  set (bpb := fst (extract_time_signature score)).
  assert (Hne : split_into_sections notes bpb 16 <> [])
    by (apply accepted_sections_nonempty; exact Hlen).
  split; [exact Hne|]. split.
  - intros i j si sj Hij Hi Hj.
    destruct (split_sections_spec _ _ _ _ _ Hi) as (_ & Ei & _).
    destruct (split_sections_spec _ _ _ _ _ Hj) as (_ & Ej & _).
    rewrite Ei, Ej. apply window_start_mono; [|exact Hij].
    pose proof (beats_per_bar_nonneg score). fold bpb in H. lia.
  - destruct (split_into_sections notes bpb 16) as [|s rest] eqn:E; [congruence|].
    exists s, rest. split; [reflexivity|].
    assert (Hs : nth_error (split_into_sections notes bpb 16) 0 = Some s)
      by (rewrite E; reflexivity).
    apply split_sections_spec in Hs. destruct Hs as (_ & _ & H0 & _).
    apply H0. reflexivity.
Qed.

Lemma accepted_sections_ordered_witness :
  exists doc,
    convert_file "overlap" (Some ex_overlap) = Returned (Some doc) /\
    Song.sections doc <> [] /\
    (forall i j si sj, (i <= j)%nat ->
       nth_error (Song.sections doc) i = Some si ->
       nth_error (Song.sections doc) j = Some sj ->
       Sec.startBeat si <= Sec.startBeat sj) /\
    (exists s rest, Song.sections doc = s :: rest /\ Sec.startBeat s = 0).
Proof.
  eexists. split; [vm_compute; reflexivity|].
  apply (accepted_sections_ordered "overlap" (Some ex_overlap)).
  vm_compute. reflexivity.
Defined.

(** C2, as amended: in a returned document [durationSeconds] is the larger of
    10 and [int((lastBeat / tempo) * 60)] as Python computes it: the quotient
    and the product are rounded to the nearest double and [int] drops the
    fractional part (truncation toward zero, not rounding to nearest);
    [lastBeat] is the largest float sum [startBeat + durationBeats] of the
    notes, and the tempo is not zero. *)
Theorem duration_is_truncated
    (stem : string) (score : Score) (doc : Song.t) (lastBeat : Q) :
  convert_file stem (Some score) = Returned (Some doc) ->
  is_float_last_beat (score_to_note_events score) lastBeat ->
  let tempo := Song.tempo (Song.settings doc) in
  tempo <> 0%Z /\
  Song.durationSeconds (Song.metadata doc)
    = Z.max (truncate (fmul (rnd (lastBeat / float_of_int tempo)) 60)) 10 /\
  (10 <= Song.durationSeconds (Song.metadata doc))%Z.
Proof.
  intros H Hlast. apply convert_file_accepted in H.
  destruct H as (score' & d & Hp & Hlen & Ht & _ & Hdur & _ & _ & _).
  injection Hp as <-. cbv zeta.
  set (tempo := Song.tempo (Song.settings doc)) in *.
  destruct (len_ge_4_cons _ Hlen) as (x & l' & E).
  rewrite E in Hdur, Hlast.
  rewrite (estimate_duration_cons x l' _ Ht) in Hdur. injection Hdur as Hdur.
  pose proof (is_float_last_beat_unique _ _ _ (py_max_is_float_last_beat x l') Hlast)
    as Hm.
  assert (Hq : rnd (py_max (float_end x) (map float_end l') / float_of_int tempo)
               = rnd (lastBeat / float_of_int tempo))
    by (apply rnd_comp; rewrite Hm; reflexivity).
  rewrite py_int_truncate, Hq in Hdur.
  split; [exact Ht|]. split; [symmetry; exact Hdur | lia].
Qed.

Lemma duration_is_truncated_witness :
  exists doc,
    convert_file "trunc" (Some ex_trunc) = Returned (Some doc) /\
    is_float_last_beat (score_to_note_events ex_trunc) (43 # 2) /\
    let tempo := Song.tempo (Song.settings doc) in
    tempo <> 0%Z /\
    Song.durationSeconds (Song.metadata doc)
      = Z.max (truncate (fmul (rnd ((43 # 2) / float_of_int tempo)) 60)) 10 /\
    (10 <= Song.durationSeconds (Song.metadata doc))%Z.
Proof.
  assert (Hlast : is_float_last_beat (score_to_note_events ex_trunc) (43 # 2)).
  { float_last_beat_at 3%nat. }
  eexists. split; [vm_compute; reflexivity|]. split; [exact Hlast|].
  apply (duration_is_truncated "trunc" ex_trunc _ (43 # 2)).
  - vm_compute. reflexivity.
  - exact Hlast.
Defined.

(** C2, as stated, fails: in [ex_trunc] the last beat is 21.5 and the tempo
    120, so that [lastBeat / tempo * 60] is 10.75; its nearest integer is 11
    and the claimed value [max(11, 10)] is 11, while the document holds 10. *)
Lemma duration_not_rounded :
  exists doc,
    convert_file "trunc" (Some ex_trunc) = Returned (Some doc) /\
    is_last_beat (score_to_note_events ex_trunc) (43 # 2) /\
    Song.tempo (Song.settings doc) = 120%Z /\
    (forall r, nearest_integer ((43 # 2) / inject_Z 120 * 60) r -> Z.max r 10 = 11%Z) /\
    Song.durationSeconds (Song.metadata doc) = 10%Z.
Proof.
  eexists. split; [vm_compute; reflexivity|]. split; [|split; [|split]].
  - last_beat_at 3%nat.
  - reflexivity.
  - intros r H. unfold nearest_integer in H.
    apply Qabs_Qle_condition in H. destruct H as [H1 H2].
    assert (E : (43 # 2) / inject_Z 120 * 60 == 43 # 4) by reflexivity.
    rewrite E in H1, H2.
    assert (L : 41 # 4 <= inject_Z r) by lra.
    assert (U : inject_Z r <= 45 # 4) by lra.
    unfold Qle in L, U. simpl in L, U. lia.
  - reflexivity.
Qed.

(** ** Claims on the extractors and estimators *)




Lemma difficulty_score_spec
    (n : NoteEvent) (ns : list NoteEvent) (tempo : Z) (lastBeat : Q) :
  is_float_last_beat (n :: ns) lastBeat ->
  difficulty_score n ns tempo
  = fmul (rnd (float_of_int (len (n :: ns)) / Qmax lastBeat 1))
         (rnd (inject_Z tempo / 120)).
Proof.
  intros Hlast.
  pose proof (is_float_last_beat_unique _ _ _ (py_max_is_float_last_beat n ns) Hlast)
    as Hm.
  unfold difficulty_score.
  set (m := py_max (float_end n) (map float_end ns)) in *. clearbody m.
  assert (Hd : py_max2 m 1 == Qmax lastBeat 1).
  { destruct (Q.max_spec lastBeat 1) as [[Hlt E]|[Hle E]]; rewrite E;
      unfold py_max2; destruct (Qlt_le_dec _ _); lra. }
  f_equal. apply rnd_comp. rewrite Hd. reflexivity.
Qed.

(** C4: on a non-empty note list the difficulty is given by the thresholds on
    [score = noteCount / max(lastBeat, 1) * (tempo / 120)], computed as Python
    does, each quotient and the product rounded to the nearest double, with
    [lastBeat] the largest float sum [startBeat + durationBeats]: below 0.5 it
    is 1, below 1 it is 2, below 2 it is 3, below 3 it is 4, otherwise 5; it
    lies in 1..5 and is the [metadata.difficulty] of the returned document. *)
Theorem estimate_difficulty_thresholds
    (notes : list NoteEvent) (tempo : Z) (lastBeat : Q) :
  notes <> [] ->
  is_float_last_beat notes lastBeat ->
  let score := fmul (rnd (float_of_int (len notes) / Qmax lastBeat 1))
                    (rnd (inject_Z tempo / 120)) in
  exists d,
    estimate_difficulty notes tempo = Returned d /\
    (score < 1 # 2 -> d = 1%Z) /\
    (1 # 2 <= score < 1 -> d = 2%Z) /\
    (1 <= score < 2 -> d = 3%Z) /\
    (2 <= score < 3 -> d = 4%Z) /\
    (3 <= score -> d = 5%Z) /\
    (1 <= d <= 5)%Z /\
    (forall stem sc doc,
       convert_file stem (Some sc) = Returned (Some doc) ->
       score_to_note_events sc = notes ->
       extract_tempo sc = Returned tempo ->
       Song.difficulty (Song.metadata doc) = d).
Proof.
  intros Hne Hlast score.
  destruct notes as [|n ns]; [congruence|].
  pose proof (difficulty_score_spec n ns tempo lastBeat Hlast) as Hs.
  fold score in Hs.
  pose proof (estimate_difficulty_cons n ns tempo) as Hd. cbv zeta in Hd.
  rewrite Hs in Hd.
  assert (Hdoc : forall d, estimate_difficulty (n :: ns) tempo = Returned d ->
            (1 <= d <= 5)%Z ->
            forall stem sc doc,
              convert_file stem (Some sc) = Returned (Some doc) ->
              score_to_note_events sc = n :: ns ->
              extract_tempo sc = Returned tempo ->
              Song.difficulty (Song.metadata doc) = d).
  { intros d Hed Hr stem sc doc Hc Hn Ht.
    apply convert_file_accepted in Hc.
    destruct Hc as (sc' & d' & Hp & _ & _ & Hd' & _ & Hdiff & _ & Htempo).
    injection Hp as <-. rewrite Ht in Htempo. injection Htempo as Et.
    rewrite <- Et, Hn, Hed in Hd'. injection Hd' as <-.
    rewrite Hdiff. lia. }
  clear Hs. clearbody score.
  generalize dependent (estimate_difficulty (n :: ns) tempo). intros r Hd Hdoc.
  destruct (Qlt_le_dec score (1 # 2));
    [|destruct (Qlt_le_dec score 1);
      [|destruct (Qlt_le_dec score 2); [|destruct (Qlt_le_dec score 3)]]];
    eexists; (split; [exact Hd|]);
    (repeat (split; [try (intros; reflexivity); intros; exfalso; lra|]));
    (split; [lia | apply Hdoc; [exact Hd | lia]]).
Qed.

Lemma estimate_difficulty_thresholds_witness :
  exists d,
    estimate_difficulty (score_to_note_events ex_scenario) 120 = Returned d /\
    d = 3%Z /\
    (forall stem doc,
       convert_file stem (Some ex_scenario) = Returned (Some doc) ->
       Song.difficulty (Song.metadata doc) = d).
Proof.
  destruct (estimate_difficulty_thresholds (score_to_note_events ex_scenario) 120 5)
    as (d & Hd & _ & _ & H3 & _ & _ & _ & Hdoc).
  - vm_compute. discriminate.
  - float_last_beat_at 4%nat.
  - exists d. split; [exact Hd|]. split.
    + apply H3. vm_compute. split; [discriminate | reflexivity].
    + intros stem doc Hc. apply (Hdoc stem ex_scenario doc Hc); reflexivity.
Defined.

(** When [convert_file] returns a document: the parse succeeded, at least four
    notes were extracted and the extracted tempo is not zero. *)
Lemma convert_file_document_iff (stem : string) (parsed : option Score) :
  (exists doc, convert_file stem parsed = Returned (Some doc)) <->
  (exists score tempo,
     parsed = Some score /\
     (4 <= len (score_to_note_events score))%Z /\
     extract_tempo score = Returned tempo /\ tempo <> 0%Z).
Proof.
  split.
  - intros [doc H]. apply convert_file_accepted in H.
    destruct H as (score & d & Hp & Hlen & Ht & _ & _ & _ & _ & Htempo).
    exists score, (Song.tempo (Song.settings doc)). auto.
  - intros (score & tempo & -> & Hlen & Ht & Hz).
    apply (convert_file_returns stem score tempo); assumption.
Qed.

(** Without a document the call returned [None] or raised: nothing partial. *)
Lemma convert_file_rejections (stem : string) (parsed : option Score) :
  match parsed with
  | None => convert_file stem parsed = Returned None
  | Some score =>
      ((len (score_to_note_events score) < 4)%Z ->
         convert_file stem parsed = Returned None) /\
      ((4 <= len (score_to_note_events score))%Z ->
         extract_tempo score = Returned 0%Z ->
         convert_file stem parsed = Raised ZeroDivisionError) /\
      ((4 <= len (score_to_note_events score))%Z ->
         forall e, extract_tempo score = Raised e ->
         convert_file stem parsed = Raised e)
  end.
Proof.
  destruct parsed as [score|]; [|reflexivity].
  split; [|split].
  - apply convert_file_too_few.
  - apply convert_file_zero_tempo.
  - intros Hlen e. apply convert_file_no_tempo. exact Hlen.
Qed.

(** C8 on the file [ex_slow]: the parse succeeded and four notes are
    extracted, the first metronome mark is 0.5 and the tempo 0; the call
    raises [ZeroDivisionError] and returns no document. *)
Theorem convert_file_raises_on_zero_tempo :
  len (score_to_note_events ex_slow) = 4%Z /\
  extract_tempo ex_slow = Returned 0%Z /\
  convert_file "slow" (Some ex_slow) = Raised ZeroDivisionError.
Proof.
  split; [reflexivity|]. split; [reflexivity|]. vm_compute. reflexivity.
Qed.

(** ** The note extractor *)

Lemma chord_loop (pitches : list Z) (offset ql : Q) (acc : list NoteEvent) :
  fold_left
    (fun acc pitch =>
       acc ++ [ {| note := midi_note_number pitch;
                   startBeat := beats_from_offset offset;
                   durationBeats := duration_in_beats ql |} ])
    pitches acc
  = acc ++ map (fun p => mkNoteEvent p offset ql) pitches.
Proof.
  revert acc. induction pitches as [|p ps IH]; intros acc; simpl.
  - rewrite app_nil_r. reflexivity.
  - rewrite IH, <- app_assoc. reflexivity.
Qed.

Lemma append_element_events (acc : list NoteEvent) (e : Element) :
  append_element acc e = acc ++ element_events e.
Proof.
  destruct e as [p o d|ps o d|o d]; simpl.
  - reflexivity.
  - apply chord_loop.
  - rewrite app_nil_r. reflexivity.
Qed.

Lemma extraction_loop (elems : list Element) (acc : list NoteEvent) :
  fold_left append_element elems acc = acc ++ flat_map element_events elems.
Proof.
  revert acc. induction elems as [|e es IH]; intros acc; simpl.
  - rewrite app_nil_r. reflexivity.
  - rewrite IH, append_element_events, <- app_assoc. reflexivity.
Qed.

Lemma key_le_order (a b : NoteEvent) : key_le a b = true <-> key_order a b.
Proof.
  unfold key_le, key_order.
  destruct (startBeat a ?= startBeat b) eqn:E.
  - apply Qeq_alt in E. rewrite Z.leb_le. split.
    + intros H. right. split; assumption.
    + intros [H|[_ H]]; [lra | exact H].
  - apply Qlt_alt in E. split; [intros _; left; exact E | reflexivity].
  - apply Qgt_alt in E. split; [discriminate|].
    intros [H|[H _]]; lra.
Qed.

Lemma key_order_total (a b : NoteEvent) : key_le a b = false -> key_order b a.
Proof.
  unfold key_le, key_order.
  destruct (startBeat a ?= startBeat b) eqn:E; intros H.
  - apply Qeq_alt in E. apply Z.leb_gt in H. right. split; [lra | lia].
  - discriminate.
  - apply Qgt_alt in E. left. lra.
Qed.

Lemma key_order_trans (a b c : NoteEvent) :
  key_order a b -> key_order b c -> key_order a c.
Proof.
  unfold key_order. intros [H1|[H1 L1]] [H2|[H2 L2]].
  - left. lra.
  - left. lra.
  - left. lra.
  - right. split; [lra | lia].
Qed.

Lemma sort_insert_perm (x : NoteEvent) (l : list NoteEvent) :
  Permutation (sort_insert x l) (x :: l).
Proof.
  induction l as [|y l' IH]; simpl.
  - apply Permutation_refl.
  - destruct (key_le x y).
    + apply Permutation_refl.
    + apply perm_trans with (y :: x :: l').
      * apply perm_skip. exact IH.
      * apply perm_swap.
Qed.

Lemma sort_insert_sorted (x : NoteEvent) (l : list NoteEvent) :
  StronglySorted key_order l -> StronglySorted key_order (sort_insert x l).
Proof.
  induction l as [|y l' IH]; intros Hs; simpl.
  - constructor; constructor.
  - inversion Hs as [|? ? Hs' Hall]; subst.
    destruct (key_le x y) eqn:E.
    + constructor; [exact Hs|].
      apply key_le_order in E. constructor; [exact E|].
      rewrite Forall_forall in Hall |- *. intros z Hz.
      apply key_order_trans with y; [exact E | apply Hall; exact Hz].
    + constructor; [apply IH; exact Hs'|].
      apply key_order_total in E.
      eapply Permutation_Forall.
      * apply Permutation_sym, sort_insert_perm.
      * constructor; assumption.
Qed.

Lemma py_sort_perm (l : list NoteEvent) : Permutation (py_sort l) l.
Proof.
  induction l as [|x l' IH]; simpl.
  - constructor.
  - apply perm_trans with (x :: py_sort l').
    + apply sort_insert_perm.
    + apply perm_skip. exact IH.
Qed.

Lemma py_sort_sorted (l : list NoteEvent) : StronglySorted key_order (py_sort l).
Proof.
  induction l as [|x l' IH]; simpl.
  - constructor.
  - apply sort_insert_sorted. exact IH.
Qed.

Lemma flat_map_length_sum (elems : list Element) :
  List.length (flat_map element_events elems) = list_sum (map pitch_count elems).
Proof.
  induction elems as [|e es IH]; simpl; [reflexivity|].
  rewrite length_app, IH. f_equal.
  destruct e; simpl; [reflexivity | apply length_map | reflexivity].
Qed.

Lemma key_eqb_class (a x y : NoteEvent) :
  key_eqb a x = true -> key_eqb a y = true -> key_le x y = true.
Proof.
  unfold key_eqb. rewrite !andb_true_iff, !key_le_order.
  intros [_ Hxa] [Hay _]. apply key_order_trans with a; assumption.
Qed.

Lemma sort_insert_stable (a x : NoteEvent) (l : list NoteEvent) :
  filter (key_eqb a) (sort_insert x l) = filter (key_eqb a) (x :: l).
Proof.
  induction l as [|y l' IH]; [reflexivity|].
  cbn [sort_insert]. destruct (key_le x y) eqn:E; [reflexivity|].
  cbn [filter] in IH |- *. rewrite IH.
  destruct (key_eqb a x) eqn:Ex; [|reflexivity].
  destruct (key_eqb a y) eqn:Ey; [|reflexivity].
  rewrite (key_eqb_class a x y Ex Ey) in E. discriminate.
Qed.

(** The sort is stable: events with the same key keep their input order. *)
Lemma py_sort_stable (a : NoteEvent) (l : list NoteEvent) :
  filter (key_eqb a) (py_sort l) = filter (key_eqb a) l.
Proof.
  induction l as [|x l' IH]; [reflexivity|].
  cbn [py_sort fold_right]. fold (py_sort l').
  rewrite sort_insert_stable. cbn [filter]. rewrite IH. reflexivity.
Qed.

Lemma element_events_in (e : Element) (n : NoteEvent) :
  In n (element_events e) <->
  match e with
  | NoteElt p o d => n = mkNoteEvent p o d
  | ChordElt ps o d => exists p, In p ps /\ n = mkNoteEvent p o d
  | RestElt _ _ => False
  end.
Proof.
  destruct e as [p o d|ps o d|o d]; simpl.
  - split; [intros [H|[]]; congruence | intros ->; left; reflexivity].
  - rewrite in_map_iff. split; intros (p & H1 & H2); exists p; auto.
  - reflexivity.
Qed.

(** C7: the extractor emits, for each note or chord element, one event per
    pitch with the offset and the duration of the element, and none for a
    rest; its result holds exactly these events, sorted ascending by
    [(startBeat, note)], whatever the order of the elements. *)
Theorem score_to_note_events_sorted (score : Score) :
  let out := score_to_note_events score in
  Permutation out (flat_map element_events (notesAndRests score)) /\
  List.length out = list_sum (map pitch_count (notesAndRests score)) /\
  (forall n, In n out <->
     exists e, In e (notesAndRests score) /\
       match e with
       | NoteElt p o d => n = mkNoteEvent p o d
       | ChordElt ps o d => exists p, In p ps /\ n = mkNoteEvent p o d
       | RestElt _ _ => False
       end) /\
  StronglySorted key_order out /\
  (forall score',
     Permutation (notesAndRests score') (notesAndRests score) ->
     Permutation (score_to_note_events score') out /\
     StronglySorted key_order (score_to_note_events score')).
Proof.
  assert (Hperm : forall sc,
            Permutation (score_to_note_events sc)
              (flat_map element_events (notesAndRests sc))).
  { intros sc. unfold score_to_note_events. rewrite extraction_loop. simpl.
    apply py_sort_perm. }
  assert (Hsorted : forall sc, StronglySorted key_order (score_to_note_events sc))
    by (intros sc; apply py_sort_sorted).
  cbv zeta. split; [apply Hperm|]. split; [|split; [|split]].
  - rewrite (Permutation_length (Hperm score)). apply flat_map_length_sum.
  - intros n. split.
    + intros Hin. apply (Permutation_in _ (Hperm score)) in Hin.
      apply in_flat_map in Hin. destruct Hin as (e & He & Hn).
      exists e. split; [exact He | apply element_events_in; exact Hn].
    + intros (e & He & Hn).
      apply (Permutation_in _ (Permutation_sym (Hperm score))).
      apply in_flat_map. exists e. split; [exact He | apply element_events_in; exact Hn].
  - apply Hsorted.
  - intros score' Hp. split; [|apply Hsorted].
    apply perm_trans with (flat_map element_events (notesAndRests score'));
      [apply Hperm|].
    apply perm_trans with (flat_map element_events (notesAndRests score));
      [|apply Permutation_sym, Hperm].
    apply Permutation_flat_map. exact Hp.
Qed.

Lemma score_to_note_events_sorted_witness :
  Permutation (score_to_note_events ex_overlap_swapped) (score_to_note_events ex_overlap) /\
  StronglySorted key_order (score_to_note_events ex_overlap_swapped).
Proof.
  apply (score_to_note_events_sorted ex_overlap).
  simpl. apply perm_swap.
Defined.

(** ** Scenarios *)

(** Five notes at offsets 0..4: one section from 0 to 5, difficulty 3 from
    the score 1.0, and the 10-second floor. *)
Example scenario_five_notes :
  exists doc s,
    convert_file "five_notes" (Some ex_scenario) = Returned (Some doc) /\
    Song.sections doc = [s] /\
    Sec.startBeat s = 0 /\
    Sec.endBeat s == 5 /\
    Song.difficulty (Song.metadata doc) = 3%Z /\
    Song.durationSeconds (Song.metadata doc) = 10%Z /\
    Song.id doc = "pdmx-five-notes"%string /\
    Song.title (Song.metadata doc) = "Five Notes"%string.
Proof.
  eexists. eexists. split; [vm_compute; reflexivity|].
  repeat split.
Qed.

(** A single chord of three pitches is rejected: 3 notes < 4. *)
Example scenario_single_chord :
  len (score_to_note_events ex_chord) = 3%Z /\
  convert_file "chord" (Some ex_chord) = Returned None.
Proof. split; reflexivity. Qed.

(** A score of rests yields no notes, no sections and no document. *)
Example scenario_all_rests :
  score_to_note_events ex_rests = [] /\
  split_into_sections (score_to_note_events ex_rests) 4 16 = [] /\
  convert_file "rests" (Some ex_rests) = Returned None.
Proof. repeat split. Qed.

(** The last note ends at beat 123 and the tempo is 60: the float quotient
    123 / 60 times 60 is just below 123 and the duration is 122 seconds, while
    the exact value is 123. *)
Example scenario_duration_rounding :
  exists doc,
    convert_file "long" (Some ex_long) = Returned (Some doc) /\
    Song.durationSeconds (Song.metadata doc) = 122%Z /\
    fmul (rnd (123 / float_of_int 60)) 60 < 123 /\
    truncate (123 / 60 * 60) = 123%Z.
Proof.
  eexists. split; [vm_compute; reflexivity|].
  split; [reflexivity|]. split; vm_compute; reflexivity.
Qed.

(** Six notes up to beat 5.5 at tempo 110: the exact score is 1, the float
    score is just below 1 and the difficulty is 2. *)
Example scenario_difficulty_rounding :
  estimate_difficulty (score_to_note_events ex_boundary) 110 = Returned 2%Z /\
  inject_Z 6 / (11 # 2) * (inject_Z 110 / 120) == 1 /\
  fmul (rnd (float_of_int 6 / (11 # 2))) (rnd (inject_Z 110 / 120)) < 1.
Proof.
  split; [vm_compute; reflexivity|]. split; vm_compute; reflexivity.
Qed.

(** A first metronome mark without a number: [int(None)] raises and the
    exception leaves [convert_file]. *)
Example scenario_mark_without_number :
  extract_tempo ex_no_number = Raised TypeError /\
  convert_file "no_number" (Some ex_no_number) = Raised TypeError.
Proof. split; vm_compute; reflexivity. Qed.

(** ** More on split_into_sections *)

Lemma window_fits_snoc (bps : Z) (start : Q) (fw : bool) (l : list NoteEvent) (n : NoteEvent) :
  l <> [] ->
  window_fits bps start fw l ->
  startBeat n < start + inject_Z bps ->
  window_fits bps start fw (l ++ [n]).
Proof.
  destruct l as [|first others]; [congruence|].
  intros _ [Hf Ho] Hn. simpl. split; [exact Hf|].
  apply Forall_app. split; [exact Ho|]. constructor; [exact Hn | constructor].
Qed.

Lemma loop_inv_places_init (bps : Z) : loop_inv_places bps split_init.
Proof.
  constructor; simpl.
  - reflexivity.
  - reflexivity.
  - intros [|i] s H; discriminate.
  - intros [|i] s H; discriminate.
  - intros [|i] s H; discriminate.
  - exact I.
Qed.

Lemma loop_inv_places_step (bps : Z) (st : SplitState) (n : NoteEvent) :
  loop_inv_places bps st -> loop_inv_places bps (split_step bps st n).
Proof.
  intros [Hidx Hfresh Hident Hnext Hfits Hbuf].
  unfold split_step. destruct (window_closes bps st n) eqn:Hw.
  - apply andb_true_iff in Hw. destruct Hw as [Hle Hne].
    apply Qle_bool_iff in Hle.
    constructor; cbn [sections current_notes section_start section_idx].
    + rewrite length_app. simpl. lia.
    + discriminate.
    + intros i s H. apply nth_error_snoc in H. destruct H as [[_ H]|[-> ->]].
      * apply Hident. exact H.
      * simpl. rewrite Hidx. repeat split.
    + intros i s H. apply nth_error_snoc in H. destruct H as [[Hlt H]|[-> ->]].
      * rewrite (Hnext i s H).
        destruct (Nat.eq_dec (S i) (List.length (sections st))) as [E|E].
        -- rewrite E, nth_error_last_snoc.
           rewrite (proj2 (nth_error_None (sections st) (List.length (sections st))))
             by lia.
           reflexivity.
        -- rewrite nth_error_app1 by lia.
           destruct (nth_error (sections st) (S i)) eqn:E'; [reflexivity|].
           apply nth_error_None in E'. lia.
      * rewrite (proj2 (nth_error_None _ _)) by (rewrite length_app; simpl; lia).
        reflexivity.
    + intros i s H. apply nth_error_snoc in H. destruct H as [[_ H]|[-> ->]].
      * apply Hfits. exact H.
      * exact Hbuf.
    + simpl. split; [intros _; exact Hle | constructor].
  - constructor; cbn [sections current_notes section_start section_idx];
      try assumption.
    + intros H. apply app_eq_nil in H. destruct H; discriminate.
    + destruct (current_notes st) as [|first others] eqn:Ec.
      * rewrite (Hfresh eq_refl). simpl. split; [intros H; discriminate H | constructor].
      * apply window_fits_snoc; [discriminate | exact Hbuf |].
        apply andb_false_iff in Hw.
        destruct Hw as [Hgt|Hem]; [|rewrite Ec in Hem; discriminate].
        apply Qnot_le_lt. intros Hle. apply Qle_bool_iff in Hle. congruence.
Qed.

Lemma split_loop_places (bps : Z) (notes : list NoteEvent) :
  loop_inv_places bps (split_loop bps notes).
Proof.
  induction notes as [|n l IH] using rev_ind.
  - apply loop_inv_places_init.
  - rewrite split_loop_snoc. apply loop_inv_places_step. exact IH.
Qed.

(** Identity, contiguity and note placement of the sections of the result,
    by position. *)
Lemma split_places_spec (notes : list NoteEvent) (bpb bars : Z) (i : nat) (s : Sec.t) :
  nth_error (split_into_sections notes bpb bars) i = Some s ->
  (Sec.id s = ("section-" ++ str_of_nat i)%string /\
   Sec.label s = ("Section " ++ str_of_nat (i + 1))%string /\
   Sec.difficulty s = 3%Z) /\
  window_fits (bpb * bars) (Sec.startBeat s) (Nat.eqb i 0) (sec_notes s) /\
  (forall s', nth_error (split_into_sections notes bpb bars) (S i) = Some s' ->
     Sec.endBeat s = Sec.startBeat s').
Proof.
  destruct notes as [|n0 l].
  - rewrite split_empty. destruct i; discriminate.
  - destruct (split_output (n0 :: l) bpb bars) as (front & last & Hcur & Hout);
      [congruence|].
    cbv zeta in Hcur, Hout. rewrite Hout.
    pose proof (split_loop_places (bpb * bars) (n0 :: l)) as Hinv.
    set (st := split_loop (bpb * bars) (n0 :: l)) in *.
    intros H. apply nth_error_snoc in H. destruct H as [[Hlt H]|[-> ->]].
    + split; [apply (inv_ident _ _ Hinv); exact H|].
      split; [apply (inv_fits _ _ Hinv); exact H|].
      intros s' H'. rewrite (inv_next _ _ Hinv i s H).
      apply nth_error_snoc in H'. destruct H' as [[_ H']|[E ->]].
      * rewrite H'. reflexivity.
      * rewrite E, (proj2 (nth_error_None _ _)) by lia. reflexivity.
    + split.
      * simpl. rewrite (inv_idx _ _ Hinv). repeat split.
      * split; [exact (inv_buffer _ _ Hinv)|].
        intros s' H'.
        rewrite (proj2 (nth_error_None _ _)) in H'
          by (rewrite length_app; simpl; lia).
        discriminate.
Qed.

Lemma str_of_nat_inj (i j : nat) : str_of_nat i = str_of_nat j -> i = j.
Proof.
  unfold str_of_nat. intros H.
  apply (f_equal NilEmpty.uint_of_string) in H.
  rewrite !NilEmpty.usu in H. injection H as H.
  apply (f_equal Nat.of_uint) in H.
  rewrite !DecimalNat.Unsigned.of_to in H. exact H.
Qed.

(** X1: Section identity: the section of index [i] has id ["section-i"], label
    ["Section i+1"] and difficulty 3, and no two sections share an id. *)
Theorem sections_identified
    (notes : list NoteEvent) (bpb bars : Z) (i : nat) (s : Sec.t) :
  nth_error (split_into_sections notes bpb bars) i = Some s ->
  Sec.id s = ("section-" ++ str_of_nat i)%string /\
  Sec.label s = ("Section " ++ str_of_nat (i + 1))%string /\
  Sec.difficulty s = 3%Z /\
  (forall j s', nth_error (split_into_sections notes bpb bars) j = Some s' ->
     Sec.id s' = Sec.id s -> j = i).
Proof.
  intros H. destruct (split_places_spec _ _ _ _ _ H) as ((Hid & Hlab & Hd) & _).
  repeat split; try assumption.
  intros j s' H' E.
  destruct (split_places_spec _ _ _ _ _ H') as ((Hid' & _) & _).
  rewrite Hid, Hid' in E. simpl in E. injection E as E.
  apply str_of_nat_inj. exact E.
Qed.

Lemma sections_identified_witness :
  exists s,
    nth_error (split_into_sections (score_to_note_events ex_overlap) 4 16) 0 = Some s /\
    Sec.id s = "section-0"%string /\
    Sec.label s = "Section 1"%string /\
    Sec.difficulty s = 3%Z.
Proof.
  eexists. split; [vm_compute; reflexivity|].
  destruct (sections_identified (score_to_note_events ex_overlap) 4 16 0 _ eq_refl)
    as (H1 & H2 & H3 & _).
  split; [exact H1|]. split; [exact H2 | exact H3].
Defined.

(** X2: Contiguity: a section that is followed by another one ends exactly where
    the next one starts. *)
Theorem sections_contiguous
    (notes : list NoteEvent) (bpb bars : Z) (i : nat) (s s' : Sec.t) :
  nth_error (split_into_sections notes bpb bars) i = Some s ->
  nth_error (split_into_sections notes bpb bars) (S i) = Some s' ->
  Sec.endBeat s = Sec.startBeat s'.
Proof.
  intros H H'. destruct (split_places_spec _ _ _ _ _ H) as (_ & _ & Hn).
  apply Hn. exact H'.
Qed.

Lemma window_placement
    (notes : list NoteEvent) (bpb bars : Z) (i : nat) (s : Sec.t) :
  nth_error (split_into_sections notes bpb bars) i = Some s ->
  exists first others,
    full (Sec.layers s) = first :: others /\
    (forall n, In n others ->
       startBeat n < Sec.startBeat s + inject_Z (bpb * bars)) /\
    (i <> 0%nat -> Sec.startBeat s <= startBeat first).
Proof.
  intros H. destruct (split_places_spec _ _ _ _ _ H) as (_ & Hfit & _).
  destruct (split_sections_spec _ _ _ _ _ H) as ((_ & Hne) & _).
  unfold sec_notes in Hfit.
  destruct (full (Sec.layers s)) as [|first others]; [congruence|].
  exists first, others. destruct Hfit as [Hf Ho].
  split; [reflexivity|]. split.
  - rewrite Forall_forall in Ho. exact Ho.
  - intros Hi. apply Hf. apply Nat.eqb_neq. exact Hi.
Qed.

(** X3: Placement: in every section each note but the first starts before the
    nominal end of the window; in every section but the first, the first note
    starts at or after the start of the section. *)
Theorem section_notes_within_window
    (notes : list NoteEvent) (bpb bars : Z) (i : nat) (s : Sec.t) :
  nth_error (split_into_sections notes bpb bars) i = Some s ->
  exists first others,
    full (Sec.layers s) = first :: others /\
    (forall n, In n others ->
       startBeat n < Sec.startBeat s + inject_Z (bpb * bars)) /\
    (i <> 0%nat -> Sec.startBeat s <= startBeat first).
Proof.
  intros H. destruct (window_placement notes bpb bars i s H)
    as (first & others & H1 & H2 & H3).
  exists first, others. split; [exact H1|]. split; [exact H2 | exact H3].
Qed.

Lemma sections_contiguous_witness :
  exists s s',
    nth_error (split_into_sections ex_notes_gap 1 16) 0 = Some s /\
    nth_error (split_into_sections ex_notes_gap 1 16) 1 = Some s' /\
    Sec.endBeat s = Sec.startBeat s'.
Proof.
  eexists. eexists. split; [vm_compute; reflexivity|].
  split; [vm_compute; reflexivity|].
  apply (sections_contiguous ex_notes_gap 1 16 0); vm_compute; reflexivity.
Defined.

Lemma section_notes_within_window_witness :
  exists s first others,
    nth_error (split_into_sections ex_notes_gap 1 16) 1 = Some s /\
    full (Sec.layers s) = first :: others /\
    (forall n, In n others -> startBeat n < Sec.startBeat s + inject_Z (1 * 16)) /\
    (1%nat <> 0%nat -> Sec.startBeat s <= startBeat first).
Proof.
  eexists.
  destruct (section_notes_within_window ex_notes_gap 1 16 1 _ eq_refl)
    as (first & others & H1 & H2 & H3).
  exists first, others. split; [vm_compute; reflexivity|].
  split; [exact H1|]. split; [exact H2 | exact H3].
Defined.

Lemma sorted_segment {A : Type} (R : A -> A -> Prop) (l1 l2 l3 : list A) :
  StronglySorted R (l1 ++ l2 ++ l3) -> StronglySorted R l2.
Proof.
  induction l1 as [|x l1 IH]; simpl.
  - induction l2 as [|y l2 IH2]; simpl; intros H; [constructor|].
    inversion H as [|? ? Hs Hall]; subst. constructor.
    + apply IH2. exact Hs.
    + apply Forall_app in Hall. apply Hall.
  - intros H. inversion H; subst. apply IH. assumption.
Qed.

Lemma placed_notes_segment (secs : list Sec.t) (s : Sec.t) :
  In s secs -> exists l1 l3, placed_notes secs = l1 ++ sec_notes s ++ l3.
Proof.
  intros Hin. apply in_split in Hin. destruct Hin as (a & b & ->).
  exists (placed_notes a), (placed_notes b).
  unfold placed_notes. rewrite map_app, concat_app. reflexivity.
Qed.

Lemma sorted_after_start
    (notes : list NoteEvent) (bpb bars : Z) (i : nat) (s : Sec.t) :
  StronglySorted by_start notes ->
  (i <> 0%nat \/ forall n, In n notes -> 0 <= startBeat n) ->
  nth_error (split_into_sections notes bpb bars) i = Some s ->
  forall n, In n (full (Sec.layers s)) -> Sec.startBeat s <= startBeat n.
Proof.
  intros Hsorted Hi H n Hn.
  destruct (Nat.eq_dec i 0) as [E|E].
  - destruct Hi as [Hi|Hpos]; [congruence|].
    destruct (split_sections_spec _ _ _ _ _ H) as (_ & _ & H0 & _).
    rewrite (H0 E). apply Hpos.
    rewrite <- (split_partition notes bpb bars).
    unfold placed_notes. apply in_concat. exists (sec_notes s).
    split; [|exact Hn]. apply in_map. eapply nth_error_In. exact H.
  - destruct (window_placement _ _ _ _ _ H)
      as (first & others & Hnotes & _ & Hfirst).
    specialize (Hfirst E).
    destruct (placed_notes_segment (split_into_sections notes bpb bars) s)
      as (l1 & l3 & Hseg); [eapply nth_error_In; exact H|].
    rewrite split_partition in Hseg. rewrite Hseg in Hsorted.
    apply sorted_segment in Hsorted. unfold sec_notes in Hsorted.
    rewrite Hnotes in Hsorted, Hn.
    destruct Hn as [<-|Hn]; [exact Hfirst|].
    inversion Hsorted as [|? ? _ Hall]; subst.
    rewrite Forall_forall in Hall. specialize (Hall n Hn).
    unfold by_start in Hall. lra.
Qed.

(** X4: Sorted input: when the notes come in the order of their [startBeat],
    every note of a section other than the first starts at or after the start
    of its section; so does every note of the first section when no note
    starts before beat 0. *)
Theorem sorted_notes_after_section_start
    (notes : list NoteEvent) (bpb bars : Z) (i : nat) (s : Sec.t) :
  StronglySorted by_start notes ->
  (i <> 0%nat \/ forall n, In n notes -> 0 <= startBeat n) ->
  nth_error (split_into_sections notes bpb bars) i = Some s ->
  forall n, In n (full (Sec.layers s)) -> Sec.startBeat s <= startBeat n.
Proof.
  intros Hsorted Hi H. exact (sorted_after_start notes bpb bars i s Hsorted Hi H).
Qed.

Lemma sorted_notes_after_section_start_witness :
  exists s,
    nth_error (split_into_sections ex_notes_gap 1 16) 1 = Some s /\
    forall n, In n (full (Sec.layers s)) -> Sec.startBeat s <= startBeat n.
Proof.
  eexists. split; [vm_compute; reflexivity|].
  apply (sorted_notes_after_section_start ex_notes_gap 1 16 1).
  - sorted_by_start ex_notes_gap.
  - left. discriminate.
  - vm_compute. reflexivity.
Defined.




Lemma concat_length_ge {A : Type} (ls : list (list A)) :
  Forall (fun l => l <> []) ls -> (List.length ls <= List.length (List.concat ls))%nat.
Proof.
  induction 1 as [|l ls Hl _ IH]; simpl; [lia|].
  rewrite length_app. destruct l; [congruence|]. simpl. lia.
Qed.

(** X6: There are never more sections than notes. *)
Theorem sections_at_most_notes (notes : list NoteEvent) (bpb bars : Z) :
  (List.length (split_into_sections notes bpb bars) <= List.length notes)%nat.
Proof.
  rewrite <- (split_partition notes bpb bars) at 2.
  unfold placed_notes. rewrite <- (length_map sec_notes) at 1.
  apply concat_length_ge. apply Forall_map. apply Forall_forall.
  intros s Hin. apply In_nth_error in Hin. destruct Hin as [i Hi].
  apply (split_sections_spec _ _ _ _ _ Hi).
Qed.

(** ** More on accepted files *)

Lemma key_order_by_start (l : list NoteEvent) :
  StronglySorted key_order l -> StronglySorted by_start l.
Proof.
  induction 1 as [|x l Hs IH Hall]; constructor; [exact IH|].
  rewrite Forall_forall in Hall |- *. intros y Hy.
  destruct (Hall y Hy) as [H|[H _]]; unfold by_start; lra.
Qed.

Lemma note_event_source (score : Score) (n : NoteEvent) :
  In n (score_to_note_events score) ->
  exists e, In e (notesAndRests score) /\
    startBeat n = elt_offset e /\ durationBeats n = elt_quarterLength e.
Proof.
  unfold score_to_note_events. rewrite extraction_loop. simpl. intros Hin.
  apply (Permutation_in _ (py_sort_perm _)) in Hin.
  apply in_flat_map in Hin. destruct Hin as (e & He & Hn).
  exists e. split; [exact He|].
  apply element_events_in in Hn.
  destruct e as [p o d|ps o d|o d].
  - subst n. split; reflexivity.
  - destruct Hn as (p & _ & ->). split; reflexivity.
  - destruct Hn.
Qed.






(** X7: Well-formed sections: when no element of the score has a negative offset
    or duration, every section of a returned document ends at or after its
    start, and every one of its notes starts at or after the start of the
    section. *)
Theorem accepted_sections_well_formed
    (stem : string) (score : Score) (doc : Song.t) :
  convert_file stem (Some score) = Returned (Some doc) ->
  (forall e, In e (notesAndRests score) ->
     0 <= elt_offset e /\ 0 <= elt_quarterLength e) ->
  forall s, In s (Song.sections doc) ->
    Sec.startBeat s <= Sec.endBeat s /\
    (forall n, In n (full (Sec.layers s)) -> Sec.startBeat s <= startBeat n).
Proof.
  intros Hc Hpos s Hs. apply convert_file_accepted in Hc.
  destruct Hc as (score' & d & Hp & _ & _ & _ & _ & _ & Hsec & _).
  injection Hp as <-. rewrite Hsec in Hs.
  set (notes := score_to_note_events score) in *.
  set (bpb := fst (extract_time_signature score)) in *.
  assert (Hnn : forall n, In n notes -> 0 <= startBeat n /\ 0 <= durationBeats n).
  { intros n Hn. apply note_event_source in Hn.
    destruct Hn as (e & He & -> & ->). apply Hpos. exact He. }
  assert (Hsorted : StronglySorted by_start notes)
    by (apply key_order_by_start, py_sort_sorted).
  apply In_nth_error in Hs. destruct Hs as [i Hi].
  assert (Hnotes : forall n, In n (full (Sec.layers s)) -> Sec.startBeat s <= startBeat n).
  { apply (sorted_after_start notes bpb 16 i s Hsorted); [|exact Hi].
    right. intros n Hn. apply Hnn. exact Hn. }
  split; [|exact Hnotes].
  destruct (split_sections_spec _ _ _ _ _ Hi) as (_ & _ & _ & Hclosed & Hfinal).
  pose proof (proj1 (nth_error_Some _ i) ltac:(rewrite Hi; discriminate)) as Hlt.
  destruct (Nat.eq_dec (S i) (List.length (split_into_sections notes bpb 16)))
    as [E|E].
  - destruct (Hfinal E) as (front & last & Hf & He).
    unfold sec_notes in Hf.
    assert (Hin : In last (full (Sec.layers s)))
      by (rewrite Hf; apply in_or_app; right; left; reflexivity).
    pose proof (Hnotes last Hin) as H1.
    assert (In last notes) as Hl.
    { rewrite <- (split_partition notes bpb 16). unfold placed_notes.
      apply in_concat. exists (sec_notes s). split; [|exact Hin].
      apply in_map. eapply nth_error_In. exact Hi. }
    destruct (Hnn last Hl) as [_ H2].
    rewrite He. unfold note_end. lra.
  - rewrite Hclosed by lia.
    assert (0 <= inject_Z (bpb * 16)).
    { change 0 with (inject_Z 0). rewrite <- Zle_Qle.
      pose proof (beats_per_bar_nonneg score). fold bpb in H. lia. }
    lra.
Qed.

Lemma accepted_sections_well_formed_witness :
  exists doc,
    convert_file "overlap" (Some ex_overlap) = Returned (Some doc) /\
    forall s, In s (Song.sections doc) ->
      Sec.startBeat s <= Sec.endBeat s /\
      (forall n, In n (full (Sec.layers s)) -> Sec.startBeat s <= startBeat n).
Proof.
  eexists. split; [vm_compute; reflexivity|].
  apply (accepted_sections_well_formed "overlap" ex_overlap).
  - vm_compute. reflexivity.
  - intros e He. simpl in He.
    repeat (destruct He as [<-|He]; [split; unfold Qle; simpl; lia|]).
    destruct He.
Defined.

(** ** More on the tempo and the estimators *)

Lemma py_int_zero_iff (x : Q) : py_int x = 0%Z <-> -1 < x /\ x < 1.
Proof.
  destruct x as [n d]. unfold py_int, Qlt. simpl.
  rewrite Z.quot_small_iff by discriminate.
  change (Z.neg d) with (- Z.pos d)%Z.
  rewrite Z.mul_1_r. simpl Z.abs. lia.
Qed.

Lemma extract_tempo_cons (score : Score) (m : MetronomeMark) (ms : list MetronomeMark) :
  metronomeMarks score = m :: ms ->
  extract_tempo score
  = match number m with
    | Some x => Returned (py_int x)
    | None => Raised TypeError
    end.
Proof. intros H. unfold extract_tempo. rewrite H. reflexivity. Qed.

Lemma tempo_zero_iff (score : Score) :
  extract_tempo score = Returned 0%Z <->
  exists m ms x,
    metronomeMarks score = m :: ms /\ number m = Some x /\ -1 < x /\ x < 1.
Proof.
  unfold extract_tempo. destruct (metronomeMarks score) as [|m ms].
  - split; [discriminate | intros (m & ms & x & H & _); discriminate].
  - destruct (number m) as [x|] eqn:Ex.
    + split.
      * intros H. injection H as H. apply py_int_zero_iff in H.
        exists m, ms, x. split; [reflexivity|]. split; [exact Ex | exact H].
      * intros (m' & ms' & x' & E & Ex' & H). injection E as <- <-.
        rewrite Ex in Ex'. injection Ex' as <-.
        f_equal. apply py_int_zero_iff. exact H.
    + split; [discriminate|].
      intros (m' & ms' & x' & E & Ex' & _). injection E as <- <-. congruence.
Qed.

Lemma tempo_raises_iff (score : Score) (e : exn) :
  extract_tempo score = Raised e <->
  exists m ms, metronomeMarks score = m :: ms /\ number m = None /\ e = TypeError.
Proof.
  unfold extract_tempo. destruct (metronomeMarks score) as [|m ms].
  - split; [discriminate | intros (m & ms & H & _); discriminate].
  - destruct (number m) as [x|] eqn:Ex.
    + split; [discriminate|].
      intros (m' & ms' & E & Ex' & _). injection E as <- <-. congruence.
    + split.
      * intros H. injection H as <-. exists m, ms. auto.
      * intros (m' & ms' & _ & _ & ->). reflexivity.
Qed.

(** X10: The extracted tempo is 0 exactly when the score has a metronome mark and
    the number of the first one lies strictly between -1 and 1. *)
Theorem extract_tempo_zero_iff (score : Score) :
  extract_tempo score = Returned 0%Z <->
  exists m ms x,
    metronomeMarks score = m :: ms /\ number m = Some x /\ -1 < x /\ x < 1.
Proof.
  split.
  - intros H. apply tempo_zero_iff in H. exact H.
  - intros H. apply tempo_zero_iff. exact H.
Qed.

Lemma truncate_mono (x y : Q) : x <= y -> (truncate x <= truncate y)%Z.
Proof.
  intros Hxy. unfold truncate.
  destruct (Qle_bool 0 x) eqn:Ex; destruct (Qle_bool 0 y) eqn:Ey.
  - apply Qfloor_resp_le. exact Hxy.
  - apply Qle_bool_iff in Ex.
    assert (Qle_bool 0 y = true) by (apply Qle_bool_iff; lra). congruence.
  - assert (Hx : x <= inject_Z 0).
    { change (inject_Z 0) with 0.
      destruct (Qlt_le_dec x 0) as [H|H]; [lra|].
      apply Qle_bool_iff in H. congruence. }
    apply Qle_bool_iff in Ey.
    apply Qceiling_resp_le in Hx. rewrite Qceiling_Z in Hx.
    assert (Hy : inject_Z 0 <= y) by (change (inject_Z 0) with 0; lra).
    apply Qfloor_resp_le in Hy. rewrite Qfloor_Z in Hy. lia.
  - apply Qceiling_resp_le. exact Hxy.
Qed.

(** X11: [estimate_duration] raises exactly on a non-empty note list with tempo 0;
    whenever it returns, the result is at least 10, and it is 60 for the
    empty list. *)
Theorem estimate_duration_behaviour (notes : list NoteEvent) (tempo : Z) :
  (forall e, estimate_duration notes tempo = Raised e <->
             notes <> [] /\ tempo = 0%Z /\ e = ZeroDivisionError) /\
  (forall s, estimate_duration notes tempo = Returned s -> (10 <= s)%Z) /\
  (notes = [] -> estimate_duration notes tempo = Returned 60%Z).
Proof.
  destruct notes as [|n ns].
  - split; [|split].
    + intros e. split; [discriminate | intros [H _]; congruence].
    + intros s H. injection H as <-. lia.
    + reflexivity.
  - destruct (Z.eq_dec tempo 0) as [->|Ht].
    + rewrite estimate_duration_zero_tempo. split; [|split].
      * intros e. split.
        -- intros H. injection H as <-.
           split; [discriminate|]. split; reflexivity.
        -- intros (_ & _ & ->). reflexivity.
      * discriminate.
      * discriminate.
    + rewrite (estimate_duration_cons _ _ _ Ht). split; [|split].
      * intros e. split; [discriminate | intros (_ & H & _); contradiction].
      * intros s H. injection H as <-. lia.
      * discriminate.
Qed.

(** X12: At a positive tempo a faster tempo never gives a longer duration, when
    no note ends before beat 0. *)
Theorem estimate_duration_antitone
    (notes : list NoteEvent) (t1 t2 : Z) (s1 s2 : Z) :
  (forall n, In n notes -> 0 <= note_end n) ->
  (0 < t1 <= t2)%Z ->
  estimate_duration notes t1 = Returned s1 ->
  estimate_duration notes t2 = Returned s2 ->
  (s2 <= s1)%Z.
Proof.
  intros Hpos Ht H1 H2. destruct notes as [|n ns].
  - injection H1 as <-. injection H2 as <-. lia.
  - rewrite estimate_duration_cons in H1, H2 by lia.
    injection H1 as <-. injection H2 as <-.
    assert (Hm : 0 <= py_max (float_end n) (map float_end ns)).
    { pose proof (py_max_ge_init (float_end n) (map float_end ns)) as H.
      assert (H0 : 0 <= float_end n)
        by (apply rnd_nonneg; apply (Hpos n); left; reflexivity).
      lra. }
    pose proof (float_of_int_pos t1 ltac:(lia)) as Hf1.
    pose proof (float_of_int_mono t1 t2 ltac:(lia)) as Hf12.
    set (m := py_max (float_end n) (map float_end ns)) in *.
    set (f1 := float_of_int t1) in *. set (f2 := float_of_int t2) in *.
    clearbody m f1 f2.
    rewrite !py_int_truncate.
    apply Z.max_le_compat_r. apply truncate_mono.
    unfold fmul. apply rnd_mono.
    apply Qmult_le_compat_r; [|discriminate].
    apply rnd_mono.
    apply Qle_shift_div_l; [lra|].
    unfold Qdiv. rewrite <- Qmult_assoc.
    setoid_replace (/ f2 * f1) with (f1 / f2) by (unfold Qdiv; ring).
    assert (Hr : f1 / f2 <= 1).
    { apply Qle_shift_div_r; lra. }
    assert (Hr0 : m * (f1 / f2) <= m * 1).
    { rewrite !(Qmult_comm m). apply Qmult_le_compat_r; assumption. }
    lra.
Qed.

Lemma estimate_duration_antitone_witness :
  exists s1 s2,
    estimate_duration (score_to_note_events ex_trunc) 60 = Returned s1 /\
    estimate_duration (score_to_note_events ex_trunc) 120 = Returned s2 /\
    (s2 <= s1)%Z.
Proof.
  eexists. eexists. split; [vm_compute; reflexivity|].
  split; [vm_compute; reflexivity|].
  apply (estimate_duration_antitone (score_to_note_events ex_trunc) 60 120).
  - intros n Hn. vm_compute in Hn.
    repeat (destruct Hn as [<-|Hn]; [unfold note_end, Qle; simpl; lia|]).
    destruct Hn.
  - lia.
  - vm_compute. reflexivity.
  - vm_compute. reflexivity.
Defined.

Lemma density_nonneg (n : NoteEvent) (ns : list NoteEvent) :
  0 <= rnd (float_of_int (len (n :: ns))
            / py_max2 (py_max (float_end n) (map float_end ns)) 1).
Proof.
  apply rnd_nonneg.
  pose proof (py_max2_ge_r (py_max (float_end n) (map float_end ns)) 1) as Hm.
  pose proof (float_of_int_mono 0 (len (n :: ns)) ltac:(unfold len; lia)) as Hl.
  change (float_of_int 0) with 0 in Hl.
  set (m := py_max2 _ 1) in *. set (c := float_of_int _) in *. clearbody m c.
  apply Qle_shift_div_l; lra.
Qed.

Lemma difficulty_score_mono (n : NoteEvent) (ns : list NoteEvent) (t1 t2 : Z) :
  (t1 <= t2)%Z -> difficulty_score n ns t1 <= difficulty_score n ns t2.
Proof.
  intros Ht. unfold difficulty_score, fmul.
  pose proof (density_nonneg n ns) as Hd.
  set (d := rnd (_ / py_max2 _ 1)) in *. clearbody d.
  assert (H12 : rnd (inject_Z t1 / 120) <= rnd (inject_Z t2 / 120)).
  { apply rnd_mono.
    apply Qmult_le_compat_r; [rewrite <- Zle_Qle; exact Ht | discriminate]. }
  set (r1 := rnd (inject_Z t1 / 120)) in *.
  set (r2 := rnd (inject_Z t2 / 120)) in *. clearbody r1 r2.
  apply rnd_mono. rewrite !(Qmult_comm d).
  apply Qmult_le_compat_r; assumption.
Qed.

Lemma difficulty_score_nonpos (n : NoteEvent) (ns : list NoteEvent) (t : Z) :
  (t <= 0)%Z -> difficulty_score n ns t <= 0.
Proof.
  intros Ht. unfold difficulty_score, fmul.
  pose proof (density_nonneg n ns) as Hd.
  set (d := rnd (_ / py_max2 _ 1)) in *. clearbody d.
  assert (Hr : rnd (inject_Z t / 120) <= 0).
  { apply rnd_nonpos.
    assert (H : inject_Z t <= 0)
      by (change 0 with (inject_Z 0); rewrite <- Zle_Qle; exact Ht).
    set (q := inject_Z t) in *. clearbody q.
    apply Qle_shift_div_r; lra. }
  set (r := rnd (inject_Z t / 120)) in *. clearbody r.
  apply rnd_nonpos.
  assert (H : r * d <= 0 * d) by (apply Qmult_le_compat_r; assumption).
  lra.
Qed.

(** X13: The difficulty never decreases when the tempo increases; it is 1 for a
    tempo of 0 or less and for the empty note list. *)
Theorem estimate_difficulty_monotone
    (notes : list NoteEvent) (t1 t2 : Z) (d1 d2 : Z) :
  (t1 <= t2)%Z ->
  estimate_difficulty notes t1 = Returned d1 ->
  estimate_difficulty notes t2 = Returned d2 ->
  (d1 <= d2)%Z /\ ((t1 <= 0)%Z -> d1 = 1%Z) /\ (notes = [] -> d1 = 1%Z).
Proof.
  intros Ht H1 H2. destruct notes as [|n ns].
  - injection H1 as <-. injection H2 as <-. repeat split; lia.
  - rewrite estimate_difficulty_cons in H1, H2. cbv zeta in H1, H2.
    pose proof (difficulty_score_mono n ns t1 t2 Ht) as Hs.
    pose proof (difficulty_score_nonpos n ns t1) as H0.
    set (c1 := difficulty_score n ns t1) in *.
    set (c2 := difficulty_score n ns t2) in *.
    clearbody c1 c2.
    split; [|split; [|discriminate]].
    + repeat (destruct (Qlt_le_dec c1 _) in H1);
        injection H1 as <-;
        repeat (destruct (Qlt_le_dec c2 _) in H2);
        injection H2 as <-; try lia; exfalso; lra.
    + intros Hneg. specialize (H0 Hneg).
      repeat (destruct (Qlt_le_dec c1 _) in H1);
        injection H1 as <-; try reflexivity; exfalso; lra.
Qed.

Lemma estimate_difficulty_monotone_witness :
  exists d1 d2,
    estimate_difficulty (score_to_note_events ex_scenario) 60 = Returned d1 /\
    estimate_difficulty (score_to_note_events ex_scenario) 240 = Returned d2 /\
    (d1 <= d2)%Z.
Proof.
  eexists. eexists. split; [vm_compute; reflexivity|].
  split; [vm_compute; reflexivity|].
  apply (estimate_difficulty_monotone (score_to_note_events ex_scenario) 60 240);
    [lia | vm_compute; reflexivity | vm_compute; reflexivity].
Defined.

(** ** More on convert_file *)

Lemma len_note_events (score : Score) :
  len (score_to_note_events score) = Z.of_nat (pitch_total score).
Proof.
  unfold len, score_to_note_events, pitch_total. rewrite extraction_loop. simpl.
  rewrite (Permutation_length (py_sort_perm _)), flat_map_length_sum. reflexivity.
Qed.

Lemma convert_file_cases (stem : string) (score : Score) :
  ((len (score_to_note_events score) < 4)%Z /\
     convert_file stem (Some score) = Returned None) \/
  ((4 <= len (score_to_note_events score))%Z /\
     exists e, extract_tempo score = Raised e /\
       convert_file stem (Some score) = Raised e) \/
  ((4 <= len (score_to_note_events score))%Z /\
     extract_tempo score = Returned 0%Z /\
     convert_file stem (Some score) = Raised ZeroDivisionError) \/
  ((4 <= len (score_to_note_events score))%Z /\
     (exists tempo, extract_tempo score = Returned tempo /\ tempo <> 0%Z) /\
     exists doc, convert_file stem (Some score) = Returned (Some doc)).
Proof.
  destruct (Z_lt_le_dec (len (score_to_note_events score)) 4) as [H|H].
  - left. split; [exact H | apply convert_file_too_few; exact H].
  - right. destruct (extract_tempo score) as [tempo|e] eqn:Et.
    + right. destruct (Z.eq_dec tempo 0) as [->|E].
      * left. split; [exact H|]. split; [reflexivity|].
        apply convert_file_zero_tempo; assumption.
      * right. split; [exact H|]. split; [exists tempo; auto|].
        apply (convert_file_returns stem score tempo); assumption.
    + left. split; [exact H|]. exists e. split; [reflexivity|].
      apply convert_file_no_tempo; assumption.
Qed.

(** X14: Rejection: [convert_file] returns [None] exactly when the parse failed or
    the note and chord elements of the score have fewer than 4 pitches in
    total; the test on an empty section list never rejects a file. *)
Theorem convert_file_rejects_iff (stem : string) (parsed : option Score) :
  convert_file stem parsed = Returned None <->
  parsed = None \/ exists score, parsed = Some score /\ (pitch_total score < 4)%nat.
Proof.
  destruct parsed as [score|].
  - pose proof (len_note_events score) as Hl.
    destruct (convert_file_cases stem score)
      as [[H E]|[(H & e & _ & E)|[(H & _ & E)|(H & _ & doc & E)]]]; rewrite E; split.
    + intros _. right. exists score. split; [reflexivity | lia].
    + reflexivity.
    + discriminate.
    + intros [?|(sc & Hp & Hlt)]; [discriminate|]. injection Hp as <-. lia.
    + discriminate.
    + intros [?|(sc & Hp & Hlt)]; [discriminate|]. injection Hp as <-. lia.
    + discriminate.
    + intros [?|(sc & Hp & Hlt)]; [discriminate|]. injection Hp as <-. lia.
  - split; [intros _; left; reflexivity | reflexivity].
Qed.

(** X15: Failure: [convert_file] raises exactly when the parse succeeded, the score
    has at least 4 pitches and its first metronome mark either carries no
    number, and the exception is [TypeError], or carries a number strictly
    between -1 and 1, and the exception is [ZeroDivisionError]. *)
Theorem convert_file_raises_iff (stem : string) (parsed : option Score) (e : exn) :
  convert_file stem parsed = Raised e <->
  exists score m ms,
    parsed = Some score /\ (4 <= pitch_total score)%nat /\
    metronomeMarks score = m :: ms /\
    ((number m = None /\ e = TypeError) \/
     (exists x, number m = Some x /\ -1 < x /\ x < 1 /\ e = ZeroDivisionError)).
Proof.
  destruct parsed as [score|].
  - pose proof (len_note_events score) as Hl.
    destruct (convert_file_cases stem score)
      as [[H E]|[(H & e0 & Ht & E)|[(H & Ht & E)|(H & (tempo & Ht & Hz) & doc & E)]]];
      rewrite E; split.
    + discriminate.
    + intros (sc & m & ms & Hp & Hge & _). injection Hp as <-. lia.
    + intros He. injection He as <-. apply tempo_raises_iff in Ht.
      destruct Ht as (m & ms & Hm & Hn & He).
      exists score, m, ms. split; [reflexivity|]. split; [lia|].
      split; [exact Hm|]. left. split; assumption.
    + intros (sc & m & ms & Hp & _ & Hm & Hc). injection Hp as <-.
      rewrite (extract_tempo_cons _ _ _ Hm) in Ht.
      destruct Hc as [[Hn ->]|(x & Hn & _ & _ & _)]; rewrite Hn in Ht.
      * injection Ht as <-. reflexivity.
      * discriminate.
    + intros He. injection He as <-. apply tempo_zero_iff in Ht.
      destruct Ht as (m & ms & x & Hm & Hn & Hb).
      exists score, m, ms. split; [reflexivity|]. split; [lia|].
      split; [exact Hm|]. right. exists x. split; [exact Hn|].
      split; [apply Hb|]. split; [apply Hb | reflexivity].
    + intros (sc & m & ms & Hp & _ & Hm & Hc). injection Hp as <-.
      rewrite (extract_tempo_cons _ _ _ Hm) in Ht.
      destruct Hc as [[Hn ->]|(x & Hn & _ & _ & ->)]; rewrite Hn in Ht.
      * discriminate.
      * reflexivity.
    + discriminate.
    + intros (sc & m & ms & Hp & _ & Hm & Hc). injection Hp as <-. exfalso.
      destruct Hc as [[Hn _]|(x & Hn & Hlo & Hhi & _)].
      * rewrite (extract_tempo_cons _ _ _ Hm), Hn in Ht. discriminate.
      * apply Hz.
        assert (H0 : extract_tempo score = Returned 0%Z).
        { apply tempo_zero_iff. exists m, ms, x. auto. }
        rewrite Ht in H0. injection H0 as H0. exact H0.
  - split; [discriminate | intros (sc & m & ms & Hp & _); discriminate].
Qed.

(** X9: The notes of a returned document, read section after section, are the
    extracted notes in their sorted order, one per pitch of the score, at
    least four. *)
Theorem accepted_document_notes (stem : string) (score : Score) (doc : Song.t) :
  convert_file stem (Some score) = Returned (Some doc) ->
  let notes := List.concat (map (fun s => full (Sec.layers s)) (Song.sections doc)) in
  notes = score_to_note_events score /\
  StronglySorted key_order notes /\
  List.length notes = pitch_total score /\
  (4 <= pitch_total score)%nat.
Proof.
  intros H. apply convert_file_accepted in H.
  destruct H as (score' & d & Hp & Hlen & _ & _ & _ & _ & Hsec & _).
  injection Hp as <-. cbv zeta. rewrite Hsec.
  pose proof (split_partition (score_to_note_events score)
                (fst (extract_time_signature score)) 16) as Hpart.
  unfold placed_notes, sec_notes in Hpart. rewrite Hpart.
  pose proof (len_note_events score) as Hl. unfold len in Hl, Hlen.
  split; [reflexivity|]. split; [apply py_sort_sorted|]. split; lia.
Qed.

Lemma accepted_document_notes_witness :
  exists doc,
    convert_file "overlap" (Some ex_overlap) = Returned (Some doc) /\
    List.concat (map (fun s => full (Sec.layers s)) (Song.sections doc))
      = score_to_note_events ex_overlap /\
    (4 <= pitch_total ex_overlap)%nat.
Proof.
  assert (Hc : exists doc,
            convert_file "overlap" (Some ex_overlap) = Returned (Some doc))
    by (eexists; vm_compute; reflexivity).
  destruct Hc as [doc Hc]. exists doc. split; [exact Hc|].
  destruct (accepted_document_notes "overlap" ex_overlap doc Hc)
    as (H1 & _ & _ & H4).
  split; [exact H1 | exact H4].
Defined.

Lemma slug_cons (c : ascii) (s : string) :
  slug (String c s) = String (slug_char c) (slug s).
Proof.
  unfold slug, slug_char. simpl.
  destruct (Ascii.eqb (to_lower c) " "); reflexivity.
Qed.

Lemma slug_char_idem (c : ascii) : slug_char (slug_char c) = slug_char c.
Proof. destruct c as [[] [] [] [] [] [] [] []]; reflexivity. Qed.

Lemma slug_char_clean (c : ascii) :
  is_upper (slug_char c) = false /\
  Ascii.eqb (slug_char c) " " = false /\
  Ascii.eqb (slug_char c) "_" = false.
Proof. destruct c as [[] [] [] [] [] [] [] []]; repeat split. Qed.

Lemma slug_idem (s : string) : slug (slug s) = slug s.
Proof.
  induction s as [|c s IH]; [reflexivity|].
  rewrite !slug_cons, slug_char_idem, IH. reflexivity.
Qed.

Lemma slug_length (s : string) : String.length (slug s) = String.length s.
Proof.
  induction s as [|c s IH]; [reflexivity|].
  rewrite slug_cons. simpl. rewrite IH. reflexivity.
Qed.

Lemma slug_clean (s : string) (c : ascii) :
  In c (list_ascii_of_string (slug s)) ->
  is_upper c = false /\ c <> " "%char /\ c <> "_"%char.
Proof.
  induction s as [|a s IH]; [intros []|].
  rewrite slug_cons. simpl. intros [<-|Hin]; [|apply IH; exact Hin].
  destruct (slug_char_clean a) as (H1 & H2 & H3).
  split; [exact H1|]. split; apply Ascii.eqb_neq; assumption.
Qed.

Lemma slug_char_ascii (c : ascii) :
  (nat_of_ascii c <? 128)%nat = true -> (nat_of_ascii (slug_char c) <? 128)%nat = true.
Proof. destruct c as [[] [] [] [] [] [] [] []]; intros H; (exact H || reflexivity). Qed.

Lemma slug_ascii_only (s : string) : ascii_only s = true -> ascii_only (slug s) = true.
Proof.
  unfold ascii_only. induction s as [|c s IH]; [reflexivity|].
  rewrite slug_cons. simpl. rewrite !andb_true_iff. intros [Hc Hs].
  split; [apply slug_char_ascii; exact Hc | apply IH; exact Hs].
Qed.

Lemma convert_file_id (stem : string) (score : Score) (doc : Song.t) :
  convert_file stem (Some score) = Returned (Some doc) ->
  Song.id doc = ("pdmx-" ++ slug stem)%string.
Proof.
  unfold convert_file.
  destruct (len (score_to_note_events score) <? 4)%Z; [discriminate|].
  destruct (extract_tempo score) as [tempo|e]; cbn [bind]; [|discriminate].
  destruct (estimate_difficulty _ tempo) as [d|e]; cbn [bind]; [|discriminate].
  destruct (negb _); [discriminate|].
  destruct (derive_title_artist _ _) as [title artist].
  destruct (estimate_duration _ tempo) as [secs|e]; cbn [bind]; [|discriminate].
  intros H. injection H as <-. reflexivity.
Qed.

(** X16: For a stem of ASCII characters, the document id is ["pdmx-"] followed by
    the slug of the file stem; the slug is as long as the stem and holds no
    upper-case letter, no space and no underscore. *)
Theorem document_id_slug (stem : string) (score : Score) (doc : Song.t) :
  ascii_only stem = true ->
  convert_file stem (Some score) = Returned (Some doc) ->
  Song.id doc = ("pdmx-" ++ slug stem)%string /\
  String.length (slug stem) = String.length stem /\
  ascii_only (slug stem) = true /\
  (forall c, In c (list_ascii_of_string (slug stem)) ->
     is_upper c = false /\ c <> " "%char /\ c <> "_"%char).
Proof.
  intros Ha H. split; [apply (convert_file_id stem score doc H)|].
  split; [apply slug_length|]. split; [apply slug_ascii_only; exact Ha|].
  apply slug_clean.
Qed.

Lemma document_id_slug_witness :
  exists doc,
    convert_file "Fur_Elise Op59" (Some ex_scenario) = Returned (Some doc) /\
    Song.id doc = "pdmx-fur-elise-op59"%string.
Proof.
  eexists. split; [vm_compute; reflexivity|].
  apply (document_id_slug "Fur_Elise Op59" ex_scenario).
  - reflexivity.
  - vm_compute. reflexivity.
Defined.

(** X17: The result depends on the file stem only through its slug: two stems with
    the same slug, such as a stem and its own slug, give the same outcome and
    hence the same document id. *)
Theorem convert_file_same_slug (a b : string) (parsed : option Score) :
  slug a = slug b ->
  convert_file a parsed = convert_file b parsed /\
  convert_file (slug a) parsed = convert_file a parsed.
Proof.
  assert (Hdep : forall x y, slug x = slug y ->
            convert_file x parsed = convert_file y parsed).
  { intros x y E. unfold convert_file. destruct parsed as [score|]; [|reflexivity].
    change (py_replace "_" "-" (py_replace " " "-" (py_lower x))) with (slug x).
    change (py_replace "_" "-" (py_replace " " "-" (py_lower y))) with (slug y).
    rewrite E. reflexivity. }
  intros E. split; [apply Hdep; exact E | apply Hdep, slug_idem].
Qed.

Lemma convert_file_same_slug_witness :
  convert_file "Fur Elise" (Some ex_scenario) = convert_file "fur_elise" (Some ex_scenario).
Proof.
  apply (convert_file_same_slug "Fur Elise" "fur_elise" (Some ex_scenario)).
  reflexivity.
Defined.

(** ** main *)

Lemma substring_all (s : string) : substring 0 (String.length s) s = s.
Proof.
  induction s as [|c s IH]; [reflexivity|]. simpl. rewrite IH. reflexivity.
Qed.

Lemma substring_skip (a s : string) (n k : nat) :
  substring (String.length a + n) k (a ++ s) = substring n k s.
Proof.
  induction a as [|c a IH]; [reflexivity|]. simpl. exact IH.
Qed.

Lemma append_length (a b : string) :
  String.length (a ++ b) = (String.length a + String.length b)%nat.
Proof.
  induction a as [|c a IH]; [reflexivity|]. simpl. rewrite IH. reflexivity.
Qed.

Lemma py_endswith_app (a s suffix : string) :
  py_endswith s suffix = true -> py_endswith (a ++ s) suffix = true.
Proof.
  unfold py_endswith. rewrite !andb_true_iff, !Nat.leb_le, append_length.
  intros [Hk He]. split; [lia|].
  replace (String.length a + String.length s - String.length suffix)%nat
    with (String.length a + (String.length s - String.length suffix))%nat by lia.
  rewrite substring_skip. exact He.
Qed.

Lemma py_endswith_self (s : string) : py_endswith s s = true.
Proof.
  unfold py_endswith. rewrite Nat.leb_refl, Nat.sub_diag, substring_all.
  apply String.eqb_refl.
Qed.

Lemma prefix_app (a b : string) : prefix a (a ++ b) = true.
Proof.
  induction a as [|c a IH]; [destruct b; reflexivity|].
  simpl. destruct (ascii_dec c c); [exact IH | congruence].
Qed.

Lemma os_path_join_cases (a b : string) :
  os_path_join a b = b \/
  os_path_join a b = (a ++ b)%string \/
  os_path_join a b = (a ++ "/" ++ b)%string.
Proof.
  unfold os_path_join. destruct (prefix "/" b); [auto|].
  destruct (_ || _); auto.
Qed.

Lemma os_path_join_endswith (a b suffix : string) :
  py_endswith b suffix = true -> py_endswith (os_path_join a b) suffix = true.
Proof.
  intros H. destruct (os_path_join_cases a b) as [E|[E|E]]; rewrite E.
  - exact H.
  - apply py_endswith_app. exact H.
  - apply py_endswith_app. apply py_endswith_app. exact H.
Qed.

(** X20: Discovery: a path is found by the walk exactly when it joins a walked
    directory with one of its file names ending in [.xml], [.mxl] or
    [.musicxml]; every path found ends with one of these. *)
Theorem discover_notation_files (walk : list (string * list string)) (p : string) :
  (In p (discover walk) <->
   exists root names f,
     In (root, names) walk /\ In f names /\
     is_notation_file f = true /\ p = os_path_join root f) /\
  (In p (discover walk) -> is_notation_file p = true).
Proof.
  assert (Hiff : In p (discover walk) <->
            exists root names f,
              In (root, names) walk /\ In f names /\
              is_notation_file f = true /\ p = os_path_join root f).
  { unfold discover. rewrite in_flat_map. split.
    - intros ([root names] & Hw & Hp). simpl in Hp.
      apply in_map_iff in Hp. destruct Hp as (f & <- & Hf).
      apply filter_In in Hf. destruct Hf as [Hf Hn].
      exists root, names, f. auto.
    - intros (root & names & f & Hw & Hf & Hn & ->).
      exists (root, names). split; [exact Hw|]. simpl.
      apply in_map. apply filter_In. auto. }
  split; [exact Hiff|].
  intros Hin. apply Hiff in Hin. destruct Hin as (root & names & f & _ & _ & Hn & ->).
  unfold is_notation_file in *. rewrite !orb_true_iff in *.
  destruct Hn as [[H|H]|H]; [left; left | left; right | right];
    apply os_path_join_endswith; exact H.
Qed.

Lemma discover_notation_files_witness :
  is_notation_file "scores/bach/air.mxl" = true.
Proof.
  apply (discover_notation_files
           [("scores/bach"%string, ["air.mxl"; "notes.txt"]%string)]
           "scores/bach/air.mxl").
  vm_compute. left. reflexivity.
Defined.

Lemma sorted_insert_perm (x : string) (l : list string) :
  Permutation (sorted_insert x l) (x :: l).
Proof.
  induction l as [|y l' IH]; simpl; [apply Permutation_refl|].
  destruct (String.leb x y); [apply Permutation_refl|].
  apply perm_trans with (y :: x :: l'); [apply perm_skip; exact IH | apply perm_swap].
Qed.

Lemma py_sorted_perm (l : list string) : Permutation (py_sorted l) l.
Proof.
  induction l as [|x l' IH]; simpl; [constructor|].
  apply perm_trans with (x :: py_sorted l');
    [apply sorted_insert_perm | apply perm_skip; exact IH].
Qed.

Section MainProperties.

Variable parse : string -> option Score.
Variable stem_of : string -> string.
Variable os_walk : string -> list (string * list string).

Local Notation "'convert'" := (convert_path parse stem_of).
Local Notation "'entry'" := (entry_of parse stem_of).
Local Notation "'raises'" := (raises_on parse stem_of).
Local Notation "'batch'" := (run_batch parse stem_of).

Lemma entry_length (dir f : string) : (List.length (entry dir f) <= 1)%nat.
Proof.
  unfold entry_of. destruct (convert_path parse stem_of f) as [[d|]|e];
    simpl; lia.
Qed.

Lemma entries_length (dir : string) (files : list string) :
  (List.length (flat_map (entry dir) files) <= List.length files)%nat.
Proof.
  induction files as [|f fs IH]; simpl; [lia|].
  rewrite length_app. pose proof (entry_length dir f). lia.
Qed.

(** The loop over files none of which raises. *)
Lemma run_batch_finishes (dir : string) (files : list string)
    (w : list (string * Song.t)) (n : nat) :
  Forall (fun f => raises f = false) files ->
  batch dir files w n =
    Finished (w ++ flat_map (entry dir) files)
             (n + List.length (flat_map (entry dir) files)).
Proof.
  revert w n. induction files as [|f fs IH]; intros w n Hall; simpl.
  - rewrite app_nil_r, Nat.add_0_r. reflexivity.
  - inversion Hall as [|? ? Hf Hfs]; subst.
    unfold raises_on in Hf. unfold entry_of. simpl.
    destruct (convert_path parse stem_of f) as [[d|]|e]; [| |discriminate].
    + rewrite (IH _ _ Hfs). simpl. rewrite <- app_assoc. simpl.
      f_equal. unfold entry_of. lia.
    + rewrite (IH _ _ Hfs). reflexivity.
Qed.

(** The loop up to the first file that raises. *)
Lemma run_batch_aborts (dir : string) (before after : list string) (f : string)
    (e : exn) (w : list (string * Song.t)) (n : nat) :
  Forall (fun g => raises g = false) before ->
  convert f = Raised e ->
  batch dir (before ++ f :: after) w n =
    Aborted (w ++ flat_map (entry dir) before)
            (n + List.length (flat_map (entry dir) before)) e.
Proof.
  revert w n. induction before as [|g gs IH]; intros w n Hall Hf; simpl.
  - simpl. rewrite Hf.
    rewrite app_nil_r, Nat.add_0_r. reflexivity.
  - inversion Hall as [|? ? Hg Hgs]; subst.
    unfold raises_on in Hg. unfold entry_of. simpl.
    destruct (convert_path parse stem_of g) as [[d|]|e']; [| |discriminate].
    + rewrite (IH _ _ Hgs Hf). simpl. rewrite <- app_assoc. simpl.
      f_equal. unfold entry_of. lia.
    + rewrite (IH _ _ Hgs Hf). reflexivity.
Qed.

Lemma first_raiser (files : list string) :
  Forall (fun f => raises f = false) files \/
  exists before f after e,
    files = before ++ f :: after /\
    Forall (fun g => raises g = false) before /\
    convert f = Raised e.
Proof.
  induction files as [|f fs IH]; [left; constructor|].
  destruct (raises f) eqn:Hf.
  - right. unfold raises_on in Hf.
    destruct (convert f) as [r|e] eqn:E; [discriminate|].
    exists [], f, fs, e. split; [reflexivity|]. split; [constructor | exact E].
  - destruct IH as [IH|(before & g & after & e & -> & Hb & Hg)].
    + left. constructor; assumption.
    + right. exists (f :: before), g, after, e.
      split; [reflexivity|]. split; [constructor; assumption | exact Hg].
Qed.

(** X21: A batch that runs to its end: no file made the conversion raise, the
    files were taken in sorted order, one document was dumped per file that
    [convert_file] accepted, and the success counter is the number of
    documents dumped, at most the number of files. *)
Theorem batch_finished (args : Args)
    (written : list (string * Song.t)) (success : nat) :
  main parse stem_of os_walk args = Finished written success ->
  let files := select_files os_walk args in
  written = flat_map (entry (arg_output_dir args)) (py_sorted files) /\
  success = List.length written /\
  (success <= List.length files)%nat /\
  (forall f, In f files -> raises f = false).
Proof.
  unfold main. destruct (_ && _); [discriminate|]. intros H. cbv zeta.
  set (files := select_files os_walk args) in *.
  destruct (first_raiser (py_sorted files))
    as [Hall|(before & f & after & e & E & Hb & Hf)].
  - pose proof (run_batch_finishes (arg_output_dir args) _ [] 0 Hall) as Hr.
    rewrite Hr in H. injection H as <- <-. simpl.
    split; [reflexivity|]. split; [reflexivity|]. split.
    + rewrite <- (Permutation_length (py_sorted_perm files)).
      apply entries_length.
    + intros f Hin. rewrite Forall_forall in Hall. apply Hall.
      apply (Permutation_in _ (Permutation_sym (py_sorted_perm files))). exact Hin.
  - pose proof (run_batch_aborts (arg_output_dir args) before after f e [] 0 Hb Hf)
      as Hr.
    rewrite <- E in Hr. rewrite Hr in H. discriminate.
Qed.

(** X22: A batch that is cut short: the files before the first one, in sorted
    order, on which [convert_file] raises were converted and dumped; this
    file and the files after it gave no document. *)
Theorem batch_aborted (args : Args)
    (written : list (string * Song.t)) (success : nat) (e : exn) :
  main parse stem_of os_walk args = Aborted written success e ->
  exists before f after,
    py_sorted (select_files os_walk args) = before ++ f :: after /\
    convert f = Raised e /\
    (forall g, In g before -> raises g = false) /\
    written = flat_map (entry (arg_output_dir args)) before /\
    success = List.length written.
Proof.
  unfold main. destruct (_ && _); [discriminate|]. intros H.
  set (files := select_files os_walk args) in *.
  destruct (first_raiser (py_sorted files))
    as [Hall|(before & f & after & e' & E & Hb & Hf)].
  - pose proof (run_batch_finishes (arg_output_dir args) _ [] 0 Hall) as Hr.
    rewrite Hr in H. discriminate.
  - pose proof (run_batch_aborts (arg_output_dir args) before after f e' [] 0 Hb Hf)
      as Hr.
    rewrite <- E in Hr. rewrite Hr in H.
    injection H as <- <- <-. simpl.
    exists before, f, after. split; [exact E|]. split; [exact Hf|].
    split; [rewrite Forall_forall in Hb; exact Hb|]. split; reflexivity.
Qed.

(** X23: The batch is cut short exactly when the arguments name an input and
    [convert_file] raises on one of the files. *)
Theorem batch_aborts_iff (args : Args) :
  (exists written success e,
     main parse stem_of os_walk args = Aborted written success e) <->
  (truthy (arg_file args) = true \/ truthy (arg_input_dir args) = true) /\
  exists f, In f (select_files os_walk args) /\ raises f = true.
Proof.
  unfold main. split.
  - intros (w & n & e & H).
    destruct (truthy (arg_file args)) eqn:Tf;
      destruct (truthy (arg_input_dir args)) eqn:Td; simpl in H;
      try discriminate;
      (split; [auto|]);
      set (files := select_files os_walk args) in *;
      (destruct (first_raiser (py_sorted files))
         as [Hall|(before & f & after & e' & E & Hb & Hf)];
       [ pose proof (run_batch_finishes (arg_output_dir args) _ [] 0 Hall) as Hr;
         rewrite Hr in H; discriminate
       | exists f; split;
         [ apply (Permutation_in _ (py_sorted_perm files)); rewrite E;
           apply in_or_app; right; left; reflexivity
         | unfold raises_on; rewrite Hf; reflexivity ] ]).
  - intros [Ht (f & Hin & Hf)].
    assert (Hn : negb (truthy (arg_file args)) && negb (truthy (arg_input_dir args))
                 = false)
      by (destruct Ht as [-> | ->]; [reflexivity | apply andb_false_r]).
    rewrite Hn.
    set (files := select_files os_walk args) in *.
    destruct (first_raiser (py_sorted files))
      as [Hall|(before & g & after & e & E & Hb & Hg)].
    + rewrite Forall_forall in Hall.
      rewrite (Hall f) in Hf; [discriminate|].
      apply (Permutation_in _ (Permutation_sym (py_sorted_perm files))). exact Hin.
    + pose proof (run_batch_aborts (arg_output_dir args) before after g e [] 0 Hb Hg)
        as Hr.
      rewrite <- E in Hr. rewrite Hr.
      eexists. eexists. eexists. reflexivity.
Qed.

End MainProperties.

Lemma batch_finished_witness :
  exists written,
    main ex_parse ex_stem ex_walk ex_args_file = Finished written 1 /\
    1%nat = List.length written.
Proof.
  eexists. split; [vm_compute; reflexivity|].
  apply (batch_finished ex_parse ex_stem ex_walk ex_args_file _ 1).
  vm_compute. reflexivity.
Defined.

Lemma batch_aborted_witness :
  exists written before f after,
    main ex_parse ex_stem ex_walk ex_args_dir = Aborted written 1 ZeroDivisionError /\
    py_sorted (select_files ex_walk ex_args_dir) = before ++ f :: after /\
    convert_path ex_parse ex_stem f = Raised ZeroDivisionError /\
    written = flat_map (entry_of ex_parse ex_stem "out") before.
Proof.
  assert (Hm : exists written,
            main ex_parse ex_stem ex_walk ex_args_dir
            = Aborted written 1 ZeroDivisionError)
    by (eexists; vm_compute; reflexivity).
  destruct Hm as [written Hm]. exists written.
  destruct (batch_aborted ex_parse ex_stem ex_walk ex_args_dir written 1
              ZeroDivisionError Hm) as (before & f & after & H1 & H2 & _ & H4 & _).
  exists before, f, after. split; [exact Hm|].
  split; [exact H1|]. split; [exact H2 | exact H4].
Defined.

Lemma batch_aborts_iff_witness :
  exists written success e,
    main ex_parse ex_stem ex_walk ex_args_dir = Aborted written success e.
Proof.
  apply (batch_aborts_iff ex_parse ex_stem ex_walk ex_args_dir).
  split; [right; reflexivity|].
  exists "in/b.xml"%string. split; [vm_compute; auto | vm_compute; reflexivity].
Defined.

(** X24: For a stem of ASCII characters and a non-empty output directory, the
    output path of a returned document lies under the output directory and
    ends with [.json]: it is the directory, a [/] unless the directory ends
    with one, ["pdmx-"], the slug of the stem and [".json"]; files whose
    ASCII stems have the same slug get the same path. *)
Theorem out_path_of_document
    (dir stem : string) (score : Score) (doc : Song.t) :
  ascii_only stem = true ->
  dir <> ""%string ->
  convert_file stem (Some score) = Returned (Some doc) ->
  out_path dir doc =
    (if py_endswith dir "/"
     then dir ++ "pdmx-" ++ slug stem ++ ".json"
     else dir ++ "/" ++ "pdmx-" ++ slug stem ++ ".json")%string /\
  prefix dir (out_path dir doc) = true /\
  py_endswith (out_path dir doc) ".json" = true /\
  (forall stem' score' doc',
     ascii_only stem' = true ->
     convert_file stem' (Some score') = Returned (Some doc') ->
     slug stem' = slug stem ->
     out_path dir doc' = out_path dir doc).
Proof.
  intros _ Hdir H. pose proof (convert_file_id stem score doc H) as Hid.
  assert (Hp : out_path dir doc =
            (if py_endswith dir "/"
             then dir ++ "pdmx-" ++ slug stem ++ ".json"
             else dir ++ "/" ++ "pdmx-" ++ slug stem ++ ".json")%string).
  { unfold out_path, os_path_join. rewrite Hid. simpl.
    apply String.eqb_neq in Hdir. rewrite Hdir. simpl.
    destruct (py_endswith dir "/"); reflexivity. }
  split; [exact Hp|]. split; [|split].
  - rewrite Hp. destruct (py_endswith dir "/"); apply prefix_app.
  - rewrite Hp.
    assert (He : py_endswith ("pdmx-" ++ slug stem ++ ".json") ".json" = true).
    { change ("pdmx-" ++ slug stem ++ ".json")%string
        with (("pdmx-" ++ slug stem) ++ ".json")%string.
      apply py_endswith_app, py_endswith_self. }
    destruct (py_endswith dir "/").
    + apply py_endswith_app. exact He.
    + apply py_endswith_app.
      apply (py_endswith_app "/" ("pdmx-" ++ slug stem ++ ".json")). exact He.
  - intros stem' score' doc' _ H' E.
    unfold out_path. rewrite (convert_file_id _ _ _ H'), Hid, E. reflexivity.
Qed.

Lemma out_path_of_document_witness :
  exists doc,
    convert_file "Fur Elise" (Some ex_scenario) = Returned (Some doc) /\
    out_path "songs-json" doc = "songs-json/pdmx-fur-elise.json"%string.
Proof.
  eexists. split; [vm_compute; reflexivity|].
  apply (out_path_of_document "songs-json" "Fur Elise" ex_scenario).
  - reflexivity.
  - discriminate.
  - vm_compute. reflexivity.
Defined.

(** ** More on the note extractor *)

Lemma py_sort_sorted_id (l : list NoteEvent) :
  StronglySorted key_order l -> py_sort l = l.
Proof.
  induction 1 as [|x l Hs IH Hall]; [reflexivity|].
  cbn [py_sort fold_right]. fold (py_sort l). rewrite IH.
  destruct l as [|y l']; [reflexivity|].
  inversion Hall as [|? ? Hxy _]; subst.
  apply key_le_order in Hxy. simpl. rewrite Hxy. reflexivity.
Qed.

(** X18: A stream that is already in order is kept as it is: when the events of
    the elements, taken in stream order, are sorted by [(startBeat, note)],
    the extractor returns them in that order. *)
Theorem extraction_keeps_sorted_stream (score : Score) :
  StronglySorted key_order (flat_map element_events (notesAndRests score)) ->
  score_to_note_events score = flat_map element_events (notesAndRests score).
Proof.
  intros H. unfold score_to_note_events. rewrite extraction_loop. simpl.
  apply py_sort_sorted_id. exact H.
Qed.

Lemma extraction_keeps_sorted_stream_witness :
  score_to_note_events ex_scenario
  = flat_map element_events (notesAndRests ex_scenario).
Proof.
  apply (extraction_keeps_sorted_stream ex_scenario).
  simpl.
  repeat first [ apply SSorted_nil | apply SSorted_cons
               | apply Forall_nil | apply Forall_cons ];
    left; unfold Qlt; simpl; lia.
Defined.

(** X19: Stability: events with the same [(startBeat, note)] key, such as two
    voices sounding one pitch at one beat, come out in stream order. *)
Theorem extraction_stable (score : Score) (a : NoteEvent) :
  filter (key_eqb a) (score_to_note_events score)
  = filter (key_eqb a) (flat_map element_events (notesAndRests score)).
Proof.
  unfold score_to_note_events. rewrite extraction_loop. simpl.
  apply py_sort_stable.
Qed.

(** X8: Window width: in a returned document every section that is followed by
    another one spans 16 bars of the first time signature of the score, 64
    beats when the score has none. *)
Theorem accepted_window_width
    (stem : string) (score : Score) (doc : Song.t) (i : nat) (s : Sec.t) :
  convert_file stem (Some score) = Returned (Some doc) ->
  nth_error (Song.sections doc) i = Some s ->
  (S i < List.length (Song.sections doc))%nat ->
  Sec.endBeat s - Sec.startBeat s ==
    match timeSignatures score with
    | ts :: _ => inject_Z (16 * Z.of_N (numerator ts))
    | [] => 64
    end.
Proof.
  intros H Hi Hlt. apply convert_file_accepted in H.
  destruct H as (score' & d & Hp & _ & _ & _ & _ & _ & Hsec & _).
  injection Hp as <-. rewrite Hsec in Hi, Hlt.
  destruct (split_sections_spec _ _ _ _ _ Hi) as (_ & _ & _ & Hclosed & _).
  rewrite (Hclosed Hlt). unfold extract_time_signature.
  destruct (timeSignatures score) as [|ts tss]; simpl fst.
  - change (inject_Z (4 * 16)) with 64. ring.
  - rewrite (Z.mul_comm 16).
    set (w := inject_Z (Z.of_N (numerator ts) * 16)). ring.
Qed.

Lemma accepted_window_width_witness :
  exists doc s,
    convert_file "gap" (Some ex_two_sections) = Returned (Some doc) /\
    nth_error (Song.sections doc) 0 = Some s /\
    Sec.endBeat s - Sec.startBeat s == inject_Z (16 * Z.of_N 1).
Proof.
  eexists. eexists. split; [vm_compute; reflexivity|].
  split; [vm_compute; reflexivity|].
  eapply (accepted_window_width "gap" ex_two_sections) with (i := 0%nat);
    [vm_compute; reflexivity | vm_compute; reflexivity | vm_compute; lia].
Defined.

(** ** Section starts *)

(** X25: With a positive window width the sections start at strictly increasing
    beats: no two sections share a start. *)
Theorem split_starts_increasing
    (notes : list NoteEvent) (bpb bars : Z) (i j : nat) (si sj : Sec.t) :
  (0 < bpb * bars)%Z ->
  (i < j)%nat ->
  nth_error (split_into_sections notes bpb bars) i = Some si ->
  nth_error (split_into_sections notes bpb bars) j = Some sj ->
  Sec.startBeat si < Sec.startBeat sj.
Proof.
  intros Hw Hij Hi Hj.
  destruct (split_sections_spec _ _ _ _ _ Hi) as (_ & Ei & _).
  destruct (split_sections_spec _ _ _ _ _ Hj) as (_ & Ej & _).
  rewrite Ei, Ej. unfold window_start.
  apply Qmult_lt_compat_r.
  - change 0 with (inject_Z 0). rewrite <- Zlt_Qlt. exact Hw.
  - rewrite <- Zlt_Qlt. lia.
Qed.

Lemma split_starts_increasing_witness :
  exists si sj,
    nth_error (split_into_sections ex_notes_gap 1 16) 0 = Some si /\
    nth_error (split_into_sections ex_notes_gap 1 16) 1 = Some sj /\
    Sec.startBeat si < Sec.startBeat sj.
Proof.
  eexists. eexists. split; [vm_compute; reflexivity|].
  split; [vm_compute; reflexivity|].
  apply (split_starts_increasing ex_notes_gap 1 16 0 1);
    [lia | lia | vm_compute; reflexivity | vm_compute; reflexivity].
Defined.
